(** * Lockbox: a shallow embedding of the secret store and its proofs

    The development follows the Go packages the program is made of:
    - [Hex]    : encoding/hex, as far as the key is stored through it;
    - [AES], [Cipher] : crypto/aes and crypto/cipher's GCM mode, the
                 primitives behind the repository's [Encrypt] and [Decrypt];
    - [Rand]   : crypto/rand.Reader read through io.ReadFull;
    - [Crypto] : internal/crypto (key generation, [Encrypt], [Decrypt]);
    - [Db]     : internal/db/store.go, the SQLite-backed store with its two
                 tables [config] and [secrets];
    - [Strings], [Http] : strings.Replacer, strings.TrimPrefix and
                 http.ResponseWriter as main.go uses them;
    - [Main]   : main.go, the commands and the HTTP handlers.

    Go values are modelled as follows.  A [[]byte] is a [list byte]; a Go
    [string] is a [string] (a sequence of 8-bit characters), with
    [String.list_byte_of_string] for the conversion [[]byte(s)] and
    [String.string_of_list_byte] for [string(b)].  A function returning
    [(T, error)] returns a [result].  A method that mutates the store through
    its pointer receiver returns the store after the call.

    What the process does not own is explicit state: the SQLite engine is
    the contents of its two tables together with the condition of the
    connection, and the entropy source is the sequence of bytes it will
    deliver.  Their failures reach the code as the errors the Go calls
    return. *)

From Stdlib Require Import ZArith NArith List Strings.Byte Strings.Ascii Btauto.
From stdpp Require Import functions.
From stdpp Require Import base gmap sorting strings list pretty.

Abbreviation bytes := (list byte).

(** [(T, error)] *)
Inductive result (E A : Type) : Type :=
| Ok (a : A)
| Err (e : E).
Arguments Ok {E A} a.
Arguments Err {E A} e.

(** ** Bytes *)

#[global] Instance byte_eq_decision : EqDecision byte := Byte.byte_eq_dec.

(** The conversion [byte(n)] of an unsigned integer: its low eight bits. *)
Definition byte_of_N (n : N) : byte :=
  match Byte.of_N (n mod 256) with
  | Some b => b
  | None => x00
  end.

(** [a ^ b] on bytes *)
Definition byte_xor (a b : byte) : byte :=
  byte_of_N (N.lxor (Byte.to_N a) (Byte.to_N b)).

(** * encoding/hex *)
Module Hex.

(** [const hextable = "0123456789abcdef"] *)
Definition hextable : bytes := String.list_byte_of_string "0123456789abcdef".

(** [reverseHexTable]: the value of a hex digit of either case, [0xff] for
    any other byte. *)
Definition reverseHexTable (c : byte) : N :=
  let n := Byte.to_N c in
  if ((48 <=? n) && (n <=? 57))%N then (n - 48)%N          (* '0'..'9' *)
  else if ((97 <=? n) && (n <=? 102))%N then (n - 87)%N    (* 'a'..'f' *)
  else if ((65 <=? n) && (n <=? 70))%N then (n - 55)%N     (* 'A'..'F' *)
  else 255%N.

Inductive error :=
| ErrLength                        (* "encoding/hex: odd length hex string" *)
| InvalidByteError (b : byte).     (* "encoding/hex: invalid byte: %#U" *)

(** [Encode]: two digits per byte, [hextable[v>>4]] and [hextable[v&0x0f]]. *)
Fixpoint Encode (src : bytes) : bytes :=
  match src with
  | [] => []
  | v :: src =>
      nth (N.to_nat (N.shiftr (Byte.to_N v) 4)) hextable x00
      :: nth (N.to_nat (N.land (Byte.to_N v) 15)) hextable x00
      :: Encode src
  end.

Definition EncodeToString (src : bytes) : string :=
  String.string_of_list_byte (Encode src).

(** [Decode]: the bytes decoded before the first problem, and the problem.
    An invalid digit is reported before an odd length. *)
Fixpoint Decode (src : bytes) : bytes * option error :=
  match src with
  | [] => ([], None)
  | [p] =>
      if (15 <? reverseHexTable p)%N then ([], Some (InvalidByteError p))
      else ([], Some ErrLength)
  | p :: q :: src =>
      let a := reverseHexTable p in
      let b := reverseHexTable q in
      if (15 <? a)%N then ([], Some (InvalidByteError p))
      else if (15 <? b)%N then ([], Some (InvalidByteError q))
      else
        let '(dst, err) := Decode src in
        (byte_of_N (N.lor (N.shiftl a 4) b) :: dst, err)
  end.

Definition DecodeString (s : string) : bytes * option error :=
  Decode (String.list_byte_of_string s).

End Hex.

(** * crypto/cipher: the block interface and GCM *)
Module Cipher.

(** [cipher.Block], as far as GCM uses it: the block size and the
    encryption of one block. *)
Record Block := mkBlock {
  BlockSize : nat;
  Encrypt : bytes -> bytes
}.

Definition gcmBlockSize : nat := 16.
Definition gcmTagSize : nat := 16.
Definition gcmStandardNonceSize : nat := 12.

(** The largest plaintext [Seal] accepts, [((1<<32)-2) * BlockSize] bytes. *)
Definition gcmMaxPlaintext : N := (2 ^ 32 - 2) * 16.

(** A 16-byte block read as a big-endian number, and back. *)
Definition be_N (b : bytes) : N :=
  foldl (fun acc x => (acc * 256 + Byte.to_N x)%N) 0%N b.

Fixpoint be_bytes (n : nat) (v : N) : bytes :=
  match n with
  | O => []
  | S n => be_bytes n (v / 256) ++ [byte_of_N v]
  end.

(** The product of GCM's field GF(2^128): bit 0 of a block is the most
    significant bit of its first byte, and the reduction polynomial is
    [0xe1 << 120]. *)
Fixpoint gcmMul_aux (n : nat) (x v z : N) : N :=
  match n with
  | O => z
  | S n =>
      let z := if N.testbit x (N.of_nat n) then N.lxor z v else z in
      let v := if N.odd v then N.lxor (N.shiftr v 1) (N.shiftl 225 120)
               else N.shiftr v 1 in
      gcmMul_aux n x v z
  end.

Definition gcmMul (x y : N) : N := gcmMul_aux 128 x y 0.

(** The 16-byte blocks of [data], the last one padded with zeros. *)
Fixpoint blocks (fuel : nat) (data : bytes) : list N :=
  match fuel with
  | O => []
  | S fuel =>
      match data with
      | [] => []
      | _ =>
          be_N (take 16 data ++ replicate (16 - length (take 16 data)) x00)
          :: blocks fuel (drop 16 data)
      end
  end.

(** [update]: each block is added to [y], which is then multiplied by the
    hash key. *)
Definition update (h : N) (y : N) (data : bytes) : N :=
  foldl (fun y x => gcmMul (N.lxor y x) h) y (blocks (length data) data).

Definition xorBytes (a b : bytes) : bytes := zip_with byte_xor a b.

(** [gcmInc32]: the last four bytes of the counter block, as a big-endian
    number, plus one, wrapping at 2^32. *)
Definition gcmInc32 (counter : N) : N :=
  (N.shiftl (N.shiftr counter 32) 32 + (counter mod 2 ^ 32 + 1) mod 2 ^ 32)%N.

(** The key stream of [n] successive counter blocks. *)
Fixpoint counterStream (b : Block) (counter : N) (n : nat) : bytes :=
  match n with
  | O => []
  | S n => Encrypt b (be_bytes 16 counter) ++ counterStream b (gcmInc32 counter) n
  end.

(** [counterCrypt]: [in] xored with the key stream. *)
Definition counterCrypt (b : Block) (counter : N) (input : bytes) : bytes :=
  xorBytes input (counterStream b counter ((length input + 15) / 16)).

(** The GCM instance [NewGCM] returns; [hashKey] is the encryption of the
    zero block. *)
Record gcm := mkGCM {
  cipher : Block;
  nonceSize : nat;
  tagSize : nat;
  hashKey : N
}.

Inductive error :=
| errGCMBlockSize     (* "cipher: NewGCM requires 128-bit block cipher" *)
| errOpen             (* "cipher: message authentication failed" *)
| panic (msg : string).   (* the call panics *)

(** [err.Error()] *)
Definition Error (e : error) : string :=
  match e with
  | errGCMBlockSize => "cipher: NewGCM requires 128-bit block cipher"
  | errOpen => "cipher: message authentication failed"
  | panic msg => msg
  end.

Definition NewGCM (b : Block) : result error gcm :=
  if decide (BlockSize b <> gcmBlockSize) then Err errGCMBlockSize
  else
    Ok (mkGCM b gcmStandardNonceSize gcmTagSize
          (be_N (Encrypt b (replicate gcmBlockSize x00)))).

(** [deriveCounter] for a 12-byte nonce: the nonce followed by 0, 0, 0, 1. *)
Definition deriveCounter (nonce : bytes) : N :=
  be_N (nonce ++ [x00; x00; x00; x01]).

(** [auth]: GHASH of the additional data, the ciphertext and their bit
    lengths, xored with [tagMask]. *)
Definition auth (g : gcm) (ciphertext additionalData tagMask : bytes) : bytes :=
  let y := update (hashKey g) 0 additionalData in
  let y := update (hashKey g) y ciphertext in
  let lens := (N.shiftl (N.of_nat (length additionalData) * 8) 64
               + N.of_nat (length ciphertext) * 8)%N in
  let y := gcmMul (N.lxor y lens) (hashKey g) in
  xorBytes (be_bytes 16 y) tagMask.

(** [subtle.ConstantTimeCompare]: 1 when the slices are equal, 0 otherwise;
    all bytes are combined before the one test. *)
Definition ConstantTimeCompare (x y : bytes) : Z :=
  if decide (length x <> length y) then 0%Z
  else
    let v := foldl (fun v p => N.lor v (Byte.to_N (byte_xor p.1 p.2))) 0%N (zip x y) in
    if (v =? 0)%N then 1%Z else 0%Z.

(** [Seal] returns no error: [Err msg] is a call that panics with [msg]. *)
Definition Seal (g : gcm) (dst nonce plaintext data : bytes) : result string bytes :=
  if decide (length nonce <> nonceSize g) then
    Err "crypto/cipher: incorrect nonce length given to GCM"
  else if (gcmMaxPlaintext <? N.of_nat (length plaintext))%N then
    Err "crypto/cipher: message too large for GCM"
  else
    let counter := deriveCounter nonce in
    let tagMask := Encrypt (cipher g) (be_bytes 16 counter) in
    let counter := gcmInc32 counter in
    let out := counterCrypt (cipher g) counter plaintext in
    let tag := auth g out data tagMask in
    Ok (dst ++ out ++ tag).

Definition Open (g : gcm) (dst nonce ciphertext data : bytes) : result error bytes :=
  if decide (length nonce <> nonceSize g) then
    Err (panic "crypto/cipher: incorrect nonce length given to GCM")
  else if decide (length ciphertext < tagSize g) then Err errOpen
  else if (gcmMaxPlaintext + N.of_nat (tagSize g) <? N.of_nat (length ciphertext))%N then
    Err errOpen
  else
    let tag := drop (length ciphertext - tagSize g) ciphertext in
    let ciphertext := take (length ciphertext - tagSize g) ciphertext in
    let counter := deriveCounter nonce in
    let tagMask := Encrypt (cipher g) (be_bytes 16 counter) in
    let counter := gcmInc32 counter in
    let expectedTag := auth g ciphertext data tagMask in
    if (ConstantTimeCompare (take (tagSize g) expectedTag) tag =? 1)%Z then
      Ok (dst ++ counterCrypt (cipher g) counter ciphertext)
    else Err errOpen.

End Cipher.

(** * crypto/aes

    The block cipher of FIPS 197 on bytes held as numbers below 256. *)
Module AES.

(** Multiplication by [x] in GF(2^8), reduced by [x^8 + x^4 + x^3 + x + 1]. *)
Definition xtime (b : N) : N :=
  let s := N.shiftl b 1 in
  if N.testbit b 7 then N.lxor (N.land s 255) 27 else s.

Fixpoint gmul_aux (n : nat) (a b : N) : N :=
  match n with
  | O => 0%N
  | S n => N.lxor (if N.odd b then a else 0%N) (gmul_aux n (xtime a) (N.shiftr b 1))
  end.

Definition gmul (a b : N) : N := gmul_aux 8 a b.

Fixpoint gpow (n : nat) (a : N) : N :=
  match n with
  | O => 1%N
  | S n => gmul a (gpow n a)
  end.

Definition rotl8 (b k : N) : N :=
  N.land (N.lor (N.shiftl b k) (N.shiftr b (8 - k))) 255.

(** The S-box entry of [b]: the inverse of [b] in the field (0 for 0),
    then the affine map. *)
Definition sbox_of (b : N) : N :=
  let s := gpow 254 b in
  N.lxor (N.lxor (N.lxor (N.lxor (N.lxor s (rotl8 s 1)) (rotl8 s 2)) (rotl8 s 3))
            (rotl8 s 4)) 99.

(** [sbox0], the table of the 256 entries. *)
Definition sbox0 : list N :=
  Eval vm_compute in map (fun i => sbox_of (N.of_nat i)) (seq 0 256).

Definition sbox (b : N) : N := nth (N.to_nat b) sbox0 0%N.

Definition xorWords (a b : list N) : list N := zip_with N.lxor a b.
Definition subw (w : list N) : list N := map sbox w.
Definition rotw (w : list N) : list N :=
  match w with
  | a :: rest => rest ++ [a]
  | [] => []
  end.

(** Key expansion: [ws] holds the words computed so far, the latest first;
    [i] is the index of the next word and [rcon] the next round constant. *)
Fixpoint expand (fuel : nat) (nk i : nat) (rcon : N) (ws : list (list N))
  : list (list N) :=
  match fuel with
  | O => ws
  | S fuel =>
      let prev := nth 0 ws [] in
      let back := nth (nk - 1) ws [] in
      if decide (i mod nk = 0)%nat then
        let t := xorWords (subw (rotw prev)) [rcon; 0; 0; 0]%N in
        expand fuel nk (S i) (xtime rcon) (xorWords back t :: ws)
      else if decide (6 < nk /\ i mod nk = 4)%nat then
        expand fuel nk (S i) rcon (xorWords back (subw prev) :: ws)
      else
        expand fuel nk (S i) rcon (xorWords back prev :: ws)
  end.

Fixpoint words (n : nat) (key : list N) : list (list N) :=
  match n with
  | O => []
  | S n => take 4 key :: words n (drop 4 key)
  end.

(** The [4 * (rounds + 1)] words of the key schedule, as bytes. *)
Definition expandKey (key : list N) : list N :=
  let nk := (length key / 4)%nat in
  let nr := (nk + 6)%nat in
  concat (rev (expand (4 * (nr + 1) - nk) nk nk 1%N (rev (words nk key)))).

Definition roundKey (w : list N) (r : nat) : list N := take 16 (drop (16 * r) w).

(** The state is held column by column: byte [r + 4c] is row [r] of column
    [c]; row [r] is rotated left by [r] columns. *)
Definition shiftRows (st : list N) : list N :=
  map (fun i => nth (i mod 4 + 4 * ((i / 4 + i mod 4) mod 4))%nat st 0%N) (seq 0 16).

Definition mixColumn (c : list N) : list N :=
  match c with
  | [s0; s1; s2; s3] =>
      [ N.lxor (N.lxor (gmul 2 s0) (gmul 3 s1)) (N.lxor s2 s3);
        N.lxor (N.lxor s0 (gmul 2 s1)) (N.lxor (gmul 3 s2) s3);
        N.lxor (N.lxor s0 s1) (N.lxor (gmul 2 s2) (gmul 3 s3));
        N.lxor (N.lxor (gmul 3 s0) s1) (N.lxor s2 (gmul 2 s3)) ]%N
  | _ => c
  end.

Definition mixColumns (st : list N) : list N :=
  mixColumn (take 4 st) ++ mixColumn (take 4 (drop 4 st)) ++
  mixColumn (take 4 (drop 8 st)) ++ mixColumn (take 4 (drop 12 st)).

Fixpoint rounds (n r : nat) (w st : list N) : list N :=
  match n with
  | O => st
  | S n =>
      rounds n (S r) w
        (xorWords (mixColumns (shiftRows (map sbox st))) (roundKey w r))
  end.

Definition encryptBlock (w : list N) (nr : nat) (src : list N) : list N :=
  let st := xorWords src (roundKey w 0) in
  let st := rounds (nr - 1) 1 w st in
  xorWords (shiftRows (map sbox st)) (roundKey w nr).

(** [aes.KeySizeError] *)
Inductive error := KeySizeError (k : nat).   (* "crypto/aes: invalid key size %d" *)

Definition Error (e : error) : string :=
  match e with
  | KeySizeError k => "crypto/aes: invalid key size " +:+ pretty k
  end.

(** [aes.NewCipher]: keys of 16, 24 and 32 bytes select AES-128, AES-192
    and AES-256. *)
Definition NewCipher (key : bytes) : result error Cipher.Block :=
  let k := length key in
  if decide (k = 16 \/ k = 24 \/ k = 32)%nat then
    let w := expandKey (map Byte.to_N key) in
    Ok (Cipher.mkBlock 16
          (fun src => map byte_of_N (encryptBlock w (k / 4 + 6) (map Byte.to_N src))))
  else Err (KeySizeError k).

End AES.

(** * crypto/rand.Reader, read through io.ReadFull *)
Module Rand.

(** The state of the entropy source: the bytes it will still deliver.  A
    source that cannot fill the buffer makes [io.ReadFull] fail. *)
Definition Reader := bytes.

Inductive error :=
| EOF                 (* io.EOF: nothing was read *)
| ErrUnexpectedEOF.   (* io.ErrUnexpectedEOF: fewer bytes than asked *)

Definition Error (e : error) : string :=
  match e with
  | EOF => "EOF"
  | ErrUnexpectedEOF => "unexpected EOF"
  end.

(** [io.ReadFull(rand.Reader, buf)] with [len(buf) = n]. *)
Definition ReadFull (r : Reader) (n : nat) : result error bytes * Reader :=
  if decide (n <= length r)%nat then (Ok (take n r), drop n r)
  else (Err (match r with [] => EOF | _ => ErrUnexpectedEOF end), []).

End Rand.

(** * internal/crypto *)
Module Crypto.

Definition KeySize : nat := 32.
Definition NonceSize : nat := 12.

Inductive error :=
| KeyGenerationFailed (cause : Rand.error)
    (* "failed to generate encryption key: %w" *)
| InvalidKeySize (got : nat)
    (* "invalid key size: expected 32 bytes, got %d" *)
| CipherFailed (cause : AES.error)
    (* "failed to create AES cipher: %w" *)
| GCMFailed (cause : Cipher.error)
    (* "failed to create GCM cipher: %w" *)
| NonceFailed (cause : Rand.error)
    (* "failed to generate nonce: %w" *)
| MalformedCiphertext (got : nat)
    (* "ciphertext too short: expected at least 12 bytes, got %d" *)
| AuthenticationFailure (cause : Cipher.error)
    (* "decryption failed: %w" *)
| Panicked (msg : string).
    (* the call does not return: a panic of the GCM implementation *)

Definition Error (e : error) : string :=
  match e with
  | KeyGenerationFailed cause =>
      "failed to generate encryption key: " +:+ Rand.Error cause
  | InvalidKeySize got =>
      "invalid key size: expected " +:+ pretty KeySize +:+ " bytes, got " +:+ pretty got
  | CipherFailed cause => "failed to create AES cipher: " +:+ AES.Error cause
  | GCMFailed cause => "failed to create GCM cipher: " +:+ Cipher.Error cause
  | NonceFailed cause => "failed to generate nonce: " +:+ Rand.Error cause
  | MalformedCiphertext got =>
      "ciphertext too short: expected at least " +:+ pretty NonceSize
      +:+ " bytes, got " +:+ pretty got
  | AuthenticationFailure cause => "decryption failed: " +:+ Cipher.Error cause
  | Panicked msg => msg
  end.

Definition GenerateKey (rnd : Rand.Reader) : result error bytes * Rand.Reader :=
  match Rand.ReadFull rnd KeySize with
  | (Err err, rnd) => (Err (KeyGenerationFailed err), rnd)
  | (Ok key, rnd) => (Ok key, rnd)
  end.

Definition Encrypt (rnd : Rand.Reader) (plaintext key : bytes)
  : result error bytes * Rand.Reader :=
  if decide (length key <> KeySize) then (Err (InvalidKeySize (length key)), rnd)
  else
    match AES.NewCipher key with
    | Err err => (Err (CipherFailed err), rnd)
    | Ok block =>
        match Cipher.NewGCM block with
        | Err err => (Err (GCMFailed err), rnd)
        | Ok gcm =>
            match Rand.ReadFull rnd NonceSize with
            | (Err err, rnd) => (Err (NonceFailed err), rnd)
            | (Ok nonce, rnd) =>
                match Cipher.Seal gcm [] nonce plaintext [] with
                | Err msg => (Err (Panicked msg), rnd)
                | Ok ciphertext =>
                    (* result[:NonceSize] = nonce, result[NonceSize:] = ciphertext *)
                    (Ok (take NonceSize nonce ++ ciphertext), rnd)
                end
            end
        end
    end.

Definition Decrypt (ciphertext key : bytes) : result error bytes :=
  if decide (length key <> KeySize) then Err (InvalidKeySize (length key))
  else if decide (length ciphertext < NonceSize) then
    Err (MalformedCiphertext (length ciphertext))
  else
    match AES.NewCipher key with
    | Err err => Err (CipherFailed err)
    | Ok block =>
        match Cipher.NewGCM block with
        | Err err => Err (GCMFailed err)
        | Ok gcm =>
            let nonce := take NonceSize ciphertext in
            let actualCiphertext := drop NonceSize ciphertext in
            match Cipher.Open gcm [] nonce actualCiphertext [] with
            | Err (Cipher.panic msg) => Err (Panicked msg)
            | Err err => Err (AuthenticationFailure err)
            | Ok plaintext => Ok plaintext
            end
        end
    end.

End Crypto.

(** ** Byte-wise order of Go strings

    SQLite compares [TEXT] values of the default [BINARY] collation with
    [memcmp], a shorter string coming before its extensions; this is
    [String.compare]. *)
Definition key_le (a b : string) : Prop := String.leb a b = true.
Definition key_lt (a b : string) : Prop := String.ltb a b = true.

#[global] Instance key_le_dec a b : Decision (key_le a b).
Proof. unfold key_le. apply _. Defined.

Module Db.

(** *** database/sql as the store uses it *)

(** A row of [secrets]: [value BLOB NOT NULL], [created_at], [updated_at]. *)
Record secret_row := SecretRow {
  row_value : bytes;
  created_at : Z;
  updated_at : Z
}.

(** The [*sql.DB] handle behind the store: the contents of the two tables
    that [migrate] creates, both with [key TEXT PRIMARY KEY], and the
    condition of the connection.  [driver_err = Some msg] is a connection on
    which the engine fails every statement with [msg] (closed handle,
    I/O error, locked file). *)
Record DB := mkDB {
  config : gmap string bytes;
  secrets : gmap string secret_row;
  driver_err : option string
}.

Inductive sql_error :=
| ErrNoRows                      (* sql.ErrNoRows *)
| DriverError (msg : string).

(** [db.QueryRow("SELECT value FROM config WHERE key = ?", key).Scan(&value)] *)
Definition QueryRow_config_value (d : DB) (key : string) : result sql_error bytes :=
  match driver_err d with
  | Some msg => Err (DriverError msg)
  | None =>
      match config d !! key with
      | Some v => Ok v
      | None => Err ErrNoRows
      end
  end.

(** [db.QueryRow("SELECT value FROM secrets WHERE key = ?", key).Scan(&value)] *)
Definition QueryRow_secrets_value (d : DB) (key : string) : result sql_error bytes :=
  match driver_err d with
  | Some msg => Err (DriverError msg)
  | None =>
      match secrets d !! key with
      | Some r => Ok (row_value r)
      | None => Err ErrNoRows
      end
  end.

(** [sql.Result]: only [RowsAffected] is used. *)
Record Result := mkResult { RowsAffected : result sql_error Z }.

(** [db.Exec("INSERT OR REPLACE INTO config (key, value) VALUES (?, ?)", key, value)] *)
Definition Exec_replace_config (d : DB) (key : string) (value : bytes)
  : result sql_error (Result * DB) :=
  match driver_err d with
  | Some msg => Err (DriverError msg)
  | None =>
      Ok (mkResult (Ok 1%Z),
          mkDB (<[key := value]> (config d)) (secrets d) (driver_err d))
  end.

(** [db.Exec("INSERT OR REPLACE INTO secrets (key, value, created_at, updated_at)
     VALUES (?, ?, CURRENT_TIMESTAMP, CURRENT_TIMESTAMP)", key, value)];
    [now] is the engine's [CURRENT_TIMESTAMP] when the statement runs.  The
    whole row is replaced, [created_at] included. *)
Definition Exec_replace_secret (d : DB) (now : Z) (key : string) (value : bytes)
  : result sql_error (Result * DB) :=
  match driver_err d with
  | Some msg => Err (DriverError msg)
  | None =>
      Ok (mkResult (Ok 1%Z),
          mkDB (config d) (<[key := SecretRow value now now]> (secrets d)) (driver_err d))
  end.

(** [db.Exec("DELETE FROM secrets WHERE key = ?", key)]: the affected-row
    count is the number of rows the statement removed. *)
Definition Exec_delete_secret (d : DB) (key : string) : result sql_error (Result * DB) :=
  match driver_err d with
  | Some msg => Err (DriverError msg)
  | None =>
      Ok (mkResult (Ok (match secrets d !! key with Some _ => 1 | None => 0 end)%Z),
          mkDB (config d) (delete key (secrets d)) (driver_err d))
  end.

(** [*sql.Rows] over one text column: what each [rows.Scan] yields, in the
    order of [rows.Next], and what [rows.Err] reports at the end. *)
Record Rows := mkRows {
  scans : list (result sql_error string);
  rows_Err : option sql_error
}.

(** [db.Query("SELECT key FROM secrets ORDER BY key ASC")]: the keys of the
    table in ascending order, one row each. *)
Definition Query_secret_keys (d : DB) : result sql_error Rows :=
  match driver_err d with
  | Some msg => Err (DriverError msg)
  | None =>
      Ok (mkRows (Ok <$> merge_sort key_le (fst <$> map_to_list (secrets d))) None)
  end.

(** *** The store *)

(** [type Store struct { db *sql.DB }] *)
Record Store := mkStore { db : DB }.

Inductive error :=
| ErrNotFound                                 (* errors.New("key not found") *)
| Wrapped (context : string) (cause : sql_error).  (* fmt.Errorf(context + ": %w", err) *)

Definition sql_Error (e : sql_error) : string :=
  match e with
  | ErrNoRows => "sql: no rows in result set"
  | DriverError msg => msg
  end.

Definition Error (e : error) : string :=
  match e with
  | ErrNotFound => "key not found"
  | Wrapped context cause => context +:+ ": " +:+ sql_Error cause
  end.

Definition GetConfig (s : Store) (key : string) : result error bytes :=
  match QueryRow_config_value (db s) key with
  | Err err =>
      match err with
      | ErrNoRows => Err ErrNotFound
      | _ => Err (Wrapped "failed to get config" err)
      end
  | Ok value => Ok value
  end.

Definition SetConfig (s : Store) (key : string) (value : bytes) : result error Store :=
  match Exec_replace_config (db s) key value with
  | Err err => Err (Wrapped "failed to set config" err)
  | Ok (_, d) => Ok (mkStore d)
  end.

Definition SetSecret (s : Store) (now : Z) (key : string) (encryptedValue : bytes)
  : result error Store :=
  match Exec_replace_secret (db s) now key encryptedValue with
  | Err err => Err (Wrapped "failed to set secret" err)
  | Ok (_, d) => Ok (mkStore d)
  end.

Definition GetSecret (s : Store) (key : string) : result error bytes :=
  match QueryRow_secrets_value (db s) key with
  | Err err =>
      match err with
      | ErrNoRows => Err ErrNotFound
      | _ => Err (Wrapped "failed to get secret" err)
      end
  | Ok value => Ok value
  end.

(** On [Err] the caller keeps the store it had: a failed statement changes
    nothing, and a [DELETE] that affected no row removed nothing. *)
Definition DeleteSecret (s : Store) (key : string) : result error Store :=
  match Exec_delete_secret (db s) key with
  | Err err => Err (Wrapped "failed to delete secret" err)
  | Ok (result, d) =>
      match RowsAffected result with
      | Err err => Err (Wrapped "failed to get rows affected" err)
      | Ok rowsAffected =>
          if (rowsAffected =? 0)%Z then Err ErrNotFound else Ok (mkStore d)
      end
  end.

(** The [for rows.Next()] loop: each scanned key is appended to [keys]; a
    failed [Scan] ends the call. *)
Fixpoint scan_keys (rows : list (result sql_error string)) (keys : list string)
  : result error (list string) :=
  match rows with
  | [] => Ok keys
  | Err err :: _ => Err (Wrapped "failed to scan secret key" err)
  | Ok key :: rows => scan_keys rows (keys ++ [key])
  end.

Definition ListSecrets (s : Store) : result error (list string) :=
  match Query_secret_keys (db s) with
  | Err err => Err (Wrapped "failed to list secrets" err)
  | Ok rows =>
      match scan_keys (scans rows) [] with
      | Err err => Err err
      | Ok keys =>
          match rows_Err rows with
          | Some err => Err (Wrapped "error iterating secrets" err)
          | None => Ok keys
          end
      end
  end.

(** A store operation on the secrets mapping, and a run of them; a failed
    operation leaves the store as it was. *)
Inductive secret_op :=
| OpSetSecret (now : Z) (key : string) (encryptedValue : bytes)
| OpDeleteSecret (key : string).

Definition apply_op (s : Store) (o : secret_op) : Store :=
  match o with
  | OpSetSecret now key v =>
      match SetSecret s now key v with Ok s' => s' | Err _ => s end
  | OpDeleteSecret key =>
      match DeleteSecret s key with Ok s' => s' | Err _ => s end
  end.

Definition run_ops (s : Store) (ops : list secret_op) : Store := foldl apply_op s ops.

Definition empty_store : Store := mkStore (mkDB ∅ ∅ None).

End Db.

(** * strings *)
Module Strings.

(** The replacer [strings.NewReplacer] builds when every old string is a
    single byte ([byteStringReplacer]): a table from bytes to their
    replacement. *)
Record byteStringReplacer := mkReplacer {
  replacements : byte -> option bytes
}.

(** The table is filled from the last pair to the first, so the first pair
    given for a byte is the one that stays. *)
Definition NewReplacer (oldnew : list (byte * string)) : byteStringReplacer :=
  mkReplacer
    (foldl (fun tbl on => <[on.1 := Some (String.list_byte_of_string on.2)]> tbl)
       (fun _ => None) (reverse oldnew)).

(** [Replace]: one pass over [s], each byte copied or replaced. *)
Definition Replace (r : byteStringReplacer) (s : string) : string :=
  String.string_of_list_byte
    (flat_map (fun b => match replacements r b with
                        | Some new => new
                        | None => [b]
                        end)
       (String.list_byte_of_string s)).

Definition HasPrefix (s prefix : string) : bool := String.prefix prefix s.

Definition TrimPrefix (s prefix : string) : string :=
  if HasPrefix s prefix then
    String.substring (String.length prefix) (String.length s - String.length prefix) s
  else s.

(** [strings.Join(elems, sep)] *)
Definition Join (elems : list string) (sep : string) : string := String.concat sep elems.

End Strings.

(** * net/http: the response writer *)
Module Http.

Definition StatusOK : Z := 200.
Definition StatusBadRequest : Z := 400.
Definition StatusNotFound : Z := 404.
Definition StatusInternalServerError : Z := 500.

(** [header] is the map [w.Header()] returns; [status] and [sent_header]
    are the status line and the headers once they are written, after which
    neither changes; [body] is what was written. *)
Record ResponseWriter := mkResponse {
  header : gmap string string;
  status : option Z;
  sent_header : gmap string string;
  body : bytes
}.

Definition NewResponse : ResponseWriter := mkResponse ∅ None ∅ [].

(** [w.Header().Set(key, value)] *)
Definition Header_Set (w : ResponseWriter) (key value : string) : ResponseWriter :=
  mkResponse (<[key := value]> (header w)) (status w) (sent_header w) (body w).

(** [w.WriteHeader(code)]: a second call changes nothing. *)
Definition WriteHeader (w : ResponseWriter) (code : Z) : ResponseWriter :=
  match status w with
  | Some _ => w
  | None => mkResponse (header w) (Some code) (header w) (body w)
  end.

(** [w.Write(data)]: writes the header with [StatusOK] first when none was
    written. *)
Definition Write (w : ResponseWriter) (data : bytes) : ResponseWriter :=
  let w := WriteHeader w StatusOK in
  mkResponse (header w) (status w) (sent_header w) (body w ++ data).

(** [fmt.Fprintf(w, ...)] with the formatted text [text] *)
Definition Fprint (w : ResponseWriter) (text : string) : ResponseWriter :=
  Write w (String.list_byte_of_string text).

(** [*http.Response], as far as the client reads it: the status code and
    the body. *)
Record Response := mkHttpResponse {
  StatusCode : Z;
  Body : bytes
}.

(** What the server sends once the handler has returned: a handler that
    wrote no header gets [StatusOK]. *)
Definition Served (w : ResponseWriter) : Response :=
  match status w with
  | Some code => mkHttpResponse code (body w)
  | None => mkHttpResponse StatusOK (body w)
  end.

End Http.

(** * main.go *)
Module Main.

Definition dquote : string := String.string_of_list_byte [x22].
Definition newline : string := String.string_of_list_byte [x0a].

Inductive error :=
| OpenStoreFailed (cause : string)
    (* "failed to open store: %w" *)
| NotInitialized
    (* "encryption key not found. Please run 'lb init' first" *)
| StorageError (cause : Db.error)
    (* "failed to get encryption key: %w" *)
| CorruptKey (cause : Hex.error).
    (* "failed to decode encryption key: %w" *)

(** [getStoreAndKey]; [NewStore] is what [db.NewStore()] returns in the
    environment of the process. *)
Definition getStoreAndKey (NewStore : result string Db.Store)
  : result error (Db.Store * bytes) :=
  match NewStore with
  | Err err => Err (OpenStoreFailed err)
  | Ok store =>
      match Db.GetConfig store "encryption_key" with
      | Err Db.ErrNotFound => Err NotInitialized
      | Err err => Err (StorageError err)
      | Ok keyHex =>
          match Hex.DecodeString (String.string_of_list_byte keyHex) with
          | (_, Some err) => Err (CorruptKey err)
          | (key, None) => Ok (store, key)
          end
      end
  end.

(** What [init] does: the text it prints, or the failure it reports before
    [os.Exit(1)]. *)
Inductive init_outcome :=
| AlreadyInitialized
    (* "Lockbox is already initialized. Encryption key already exists." *)
| Created
    (* "Lockbox initialized successfully" *)
| CreateStoreFailed (cause : string)
    (* "Error: failed to create store: %v" *)
| CheckKeyFailed (cause : Db.error)
    (* "Error: failed to check for existing key: %v" *)
| GenerateKeyFailed (cause : Crypto.error)
    (* "Error: failed to generate encryption key: %v" *)
| StoreKeyFailed (cause : Db.error).
    (* "Error: failed to store encryption key: %v" *)

(** [initCmd.Run]: the outcome, the store when the command ends (if it was
    opened) and the entropy source. *)
Definition initCmd_Run (NewStore : result string Db.Store) (rnd : Rand.Reader)
  : init_outcome * option Db.Store * Rand.Reader :=
  match NewStore with
  | Err err => (CreateStoreFailed err, None, rnd)
  | Ok store =>
      match Db.GetConfig store "encryption_key" with
      | Ok _ => (AlreadyInitialized, Some store, rnd)
      | Err Db.ErrNotFound =>
          match Crypto.GenerateKey rnd with
          | (Err err, rnd) => (GenerateKeyFailed err, Some store, rnd)
          | (Ok key, rnd) =>
              let keyHex := Hex.EncodeToString key in
              match Db.SetConfig store "encryption_key" (String.list_byte_of_string keyHex) with
              | Err err => (StoreKeyFailed err, Some store, rnd)
              | Ok store => (Created, Some store, rnd)
              end
          end
      | Err err => (CheckKeyFailed err, Some store, rnd)
      end
  end.

(** What [set] does: it reports success, or fails on the key, on the
    encryption or on the store, each with a message and [os.Exit(1)]. *)
Inductive set_outcome :=
| SecretSet
    (* "Secret '%s' set successfully" *)
| SetKeyFailed (cause : error)
    (* "Error: %v" *)
| SetEncryptFailed (cause : Crypto.error)
    (* "Error: failed to encrypt value: %v" *)
| SetStoreFailed (cause : Db.error).
    (* "Error: failed to store secret: %v" *)

(** [setCmd.Run] with [args = [key; value]]; [now] is the engine's clock
    when the row is written. *)
Definition setCmd_Run (NewStore : result string Db.Store) (rnd : Rand.Reader) (now : Z)
    (key value : string) : set_outcome * option Db.Store * Rand.Reader :=
  match getStoreAndKey NewStore with
  | Err err => (SetKeyFailed err, None, rnd)
  | Ok (store, encKey) =>
      match Crypto.Encrypt rnd (String.list_byte_of_string value) encKey with
      | (Err err, rnd) => (SetEncryptFailed err, Some store, rnd)
      | (Ok encrypted, rnd) =>
          match Db.SetSecret store now key encrypted with
          | Err err => (SetStoreFailed err, Some store, rnd)
          | Ok store => (SecretSet, Some store, rnd)
          end
      end
  end.

(** What [get] does: it prints the value, with no extra formatting, or
    fails with a message and [os.Exit(1)]. *)
Inductive get_outcome :=
| Printed (stdout : string)
| GetKeyFailed (cause : error)
    (* "Error: %v" *)
| SecretNotFound (key : string)
    (* "Error: secret '%s' not found" *)
| GetFailed (cause : Db.error)
    (* "Error: failed to get secret: %v" *)
| GetDecryptFailed (cause : Crypto.error).
    (* "Error: failed to decrypt secret: %v" *)

(** [getCmd.Run] with [args = [key]] *)
Definition getCmd_Run (NewStore : result string Db.Store) (key : string) : get_outcome :=
  match getStoreAndKey NewStore with
  | Err err => GetKeyFailed err
  | Ok (store, encKey) =>
      match Db.GetSecret store key with
      | Err Db.ErrNotFound => SecretNotFound key
      | Err err => GetFailed err
      | Ok encrypted =>
          match Crypto.Decrypt encrypted encKey with
          | Err err => GetDecryptFailed err
          | Ok decrypted => Printed (String.string_of_list_byte decrypted)
          end
      end
  end.

(** The replacer of the [env] command and of the [/env] handler. *)
Definition escaper : Strings.byteStringReplacer :=
  Strings.NewReplacer
    [ (x5c, String.string_of_list_byte [x5c; x5c]);     (* backslash *)
      (x22, String.string_of_list_byte [x5c; x22]);     (* double quote *)
      (x24, String.string_of_list_byte [x5c; x24]);     (* dollar *)
      (x60, String.string_of_list_byte [x5c; x60]) ].   (* backtick *)

(** The line printed for one secret by the loop of [envCmd.Run] and of the
    [/env] handler: [fmt.Printf("export %s=\"%s\"\n", key, escapedValue)]. *)
Definition exportLine (key : string) (decrypted : bytes) : string :=
  let value := String.string_of_list_byte decrypted in
  let escapedValue := Strings.Replace escaper value in
  "export " +:+ key +:+ "=" +:+ dquote +:+ escapedValue +:+ dquote +:+ newline.

(** The handler of [/secrets/]: [path] is [r.URL.Path]. *)
Definition secretHandler (store : Db.Store) (encKey : bytes)
    (w : Http.ResponseWriter) (path : string) : Http.ResponseWriter :=
  let key := Strings.TrimPrefix path "/secrets/" in
  if decide (key = "") then
    let w := Http.WriteHeader w Http.StatusBadRequest in
    Http.Fprint w "Error: no key specified"
  else
    match Db.GetSecret store key with
    | Err Db.ErrNotFound =>
        let w := Http.WriteHeader w Http.StatusNotFound in
        Http.Fprint w ("Error: secret '" +:+ key +:+ "' not found")
    | Err err =>
        let w := Http.WriteHeader w Http.StatusInternalServerError in
        Http.Fprint w ("Error: " +:+ Db.Error err)
    | Ok encrypted =>
        match Crypto.Decrypt encrypted encKey with
        | Err err =>
            let w := Http.WriteHeader w Http.StatusInternalServerError in
            Http.Fprint w ("Error: " +:+ Crypto.Error err)
        | Ok decrypted =>
            let w := Http.Header_Set w "Content-Type" "text/plain" in
            Http.Write w decrypted
        end
    end.

(** What [delete] does. *)
Inductive delete_outcome :=
| SecretDeleted
    (* "Secret '%s' deleted successfully" *)
| DeleteKeyFailed (cause : error)
    (* "Error: %v" *)
| DeleteNotFound (key : string)
    (* "Error: secret '%s' not found" *)
| DeleteFailed (cause : Db.error).
    (* "Error: failed to delete secret: %v" *)

(** [deleteCmd.Run] with [args = [key]]: the outcome and the store when the
    command ends (if it was opened). *)
Definition deleteCmd_Run (NewStore : result string Db.Store) (key : string)
  : delete_outcome * option Db.Store :=
  match getStoreAndKey NewStore with
  | Err err => (DeleteKeyFailed err, None)
  | Ok (store, _) =>
      match Db.DeleteSecret store key with
      | Err Db.ErrNotFound => (DeleteNotFound key, Some store)
      | Err err => (DeleteFailed err, Some store)
      | Ok store => (SecretDeleted, Some store)
      end
  end.

(** What [list] does: the text it prints, or the failure. *)
Inductive list_outcome :=
| Listed (stdout : string)
| ListKeyFailed (cause : error)
    (* "Error: %v" *)
| ListFailed (cause : Db.error).
    (* "Error: failed to list secrets: %v" *)

(** [listCmd.Run]; [fmt.Println] ends the text with a newline. *)
Definition listCmd_Run (NewStore : result string Db.Store) : list_outcome :=
  match getStoreAndKey NewStore with
  | Err err => ListKeyFailed err
  | Ok (store, _) =>
      match Db.ListSecrets store with
      | Err err => ListFailed err
      | Ok keys =>
          if decide (length keys = 0) then Listed ("No secrets found" +:+ newline)
          else Listed (Strings.Join keys newline +:+ newline)
      end
  end.

(** How the local [env] ends: normally, or with a message and
    [os.Exit(1)]. *)
Inductive env_end :=
| EnvDone
| EnvKeyFailed (cause : error)
    (* "Error: %v" *)
| EnvListFailed (cause : Db.error)
    (* "Error: failed to list secrets: %v" *)
| EnvGetFailed (key : string) (cause : Db.error)
    (* "Error: failed to get secret '%s': %v" *)
| EnvDecryptFailed (key : string) (cause : Crypto.error).
    (* "Error: failed to decrypt secret '%s': %v" *)

(** The loop of the local [env] over the keys: [stdout] is what is printed
    so far; each secret adds its line, and the first failure ends the
    command. *)
Fixpoint envLoop (store : Db.Store) (encKey : bytes) (keys : list string)
    (stdout : string) : string * env_end :=
  match keys with
  | [] => (stdout, EnvDone)
  | key :: keys =>
      match Db.GetSecret store key with
      | Err err => (stdout, EnvGetFailed key err)
      | Ok encrypted =>
          match Crypto.Decrypt encrypted encKey with
          | Err err => (stdout, EnvDecryptFailed key err)
          | Ok decrypted => envLoop store encKey keys (stdout +:+ exportLine key decrypted)
          end
      end
  end.

(** The local [envCmd.Run] (no [--remote]): standard output, and how the
    command ends. *)
Definition envCmdRun (NewStore : result string Db.Store) : string * env_end :=
  match getStoreAndKey NewStore with
  | Err err => ("", EnvKeyFailed err)
  | Ok (store, encKey) =>
      match Db.ListSecrets store with
      | Err err => ("", EnvListFailed err)
      | Ok keys => envLoop store encKey keys ""
      end
  end.

(** The loop of the [/env] handler. *)
Fixpoint envHandlerLoop (store : Db.Store) (encKey : bytes) (keys : list string)
    (w : Http.ResponseWriter) : Http.ResponseWriter :=
  match keys with
  | [] => w
  | key :: keys =>
      match Db.GetSecret store key with
      | Err err =>
          let w := Http.WriteHeader w Http.StatusInternalServerError in
          Http.Fprint w ("Error: " +:+ Db.Error err)
      | Ok encrypted =>
          match Crypto.Decrypt encrypted encKey with
          | Err err =>
              let w := Http.WriteHeader w Http.StatusInternalServerError in
              Http.Fprint w ("Error: " +:+ Crypto.Error err)
          | Ok decrypted =>
              envHandlerLoop store encKey keys (Http.Fprint w (exportLine key decrypted))
          end
      end
  end.

(** The handler of [/env]. *)
Definition envHandler (store : Db.Store) (encKey : bytes) (w : Http.ResponseWriter)
  : Http.ResponseWriter :=
  match Db.ListSecrets store with
  | Err err =>
      let w := Http.WriteHeader w Http.StatusInternalServerError in
      Http.Fprint w ("Error: " +:+ Db.Error err)
  | Ok keys =>
      let w := Http.Header_Set w "Content-Type" "text/plain" in
      envHandlerLoop store encKey keys w
  end.

(** How [env --remote] ends. *)
Inductive remote_env_end :=
| RemoteDone
| RemoteFetchFailed (cause : string)
    (* "Error: failed to fetch from remote: %v" *)
| RemoteStatus (code : Z) (body : bytes).
    (* "Error: remote server returned status %d: %s" *)

(** [envCmd.Run] with [--remote]; [get] is what [http.Get] of the [/env]
    URL returns.  The body of a 200 response is copied to standard
    output. *)
Definition envCmd_remote (get : result string Http.Response) : string * remote_env_end :=
  match get with
  | Err err => ("", RemoteFetchFailed err)
  | Ok resp =>
      if decide (Http.StatusCode resp <> Http.StatusOK) then
        ("", RemoteStatus (Http.StatusCode resp) (Http.Body resp))
      else (String.string_of_list_byte (Http.Body resp), RemoteDone)
  end.

    (* "Error: failed to decrypt secret '%s': %v" *)



End Main.

(** * POSIX shell: the value of a double-quoted word

    Inside double quotes (XCU 2.2.3) a backslash escapes only a dollar sign,
    a backtick, a double quote, a backslash or a newline (the last pair is
    removed as a line continuation) and is literal before any other
    character; an unescaped dollar sign or backtick starts an expansion and
    an unescaped double quote ends the word.  [dq_expand body] is the value
    of the word whose text between the quotes is [body], when that text
    is free of expansions and runs to the end. *)
Fixpoint dq_expand (body : bytes) : option bytes :=
  match body with
  | [] => Some []
  | c :: rest =>
      if decide (c = x5c) then
        match rest with
        | [] => None
        | d :: rest' =>
            if decide (d = x24 \/ d = x60 \/ d = x22 \/ d = x5c) then
              cons d <$> dq_expand rest'
            else if decide (d = x0a) then dq_expand rest'
            else (fun v => c :: d :: v) <$> dq_expand rest'
        end
      else if decide (c = x24 \/ c = x60 \/ c = x22) then None
      else cons c <$> dq_expand rest
  end.

(** * Predicates and sample values of the statements *)

(** A hex digit of either case. *)
Definition is_hex_digit (c : byte) : Prop := (Hex.reverseHexTable c <= 15)%N.

(** The characters the escaper prefixes with a backslash, and the text an
    escaped character becomes. *)
Definition shell_special (b : byte) : Prop :=
  b = x5c \/ b = x22 \/ b = x24 \/ b = x60.

Definition escape_byte (b : byte) : bytes :=
  if decide (shell_special b) then [x5c; b] else [b].

(** The blob with the byte at index [i] xored with [mask]. *)
Definition flip_byte (mask : byte) (i : nat) (blob : bytes) : bytes :=
  alter (fun b => byte_xor b mask) i blob.

(** The store of the ordering example: "b", "a", "c" inserted in that
    order. *)
Definition store_bac : Db.Store :=
  Db.run_ops Db.empty_store
    [Db.OpSetSecret 1 "b" [x01]; Db.OpSetSecret 2 "a" [x02]; Db.OpSetSecret 3 "c" [x03]].

(** A store whose key entry holds four hex digits. *)
Definition store_short_key : Db.Store :=
  Db.mkStore (Db.mkDB {[ "encryption_key" := String.list_byte_of_string "abcd" ]} ∅ None).

(** A store as [init] leaves it, for the key of 32 bytes [0x2a]. *)
Definition store_initialized : Db.Store :=
  Db.mkStore
    (Db.mkDB
       {[ "encryption_key" :=
            String.list_byte_of_string (Hex.EncodeToString (replicate 32 x2a)) ]}
       ∅ None).

(** The GCM test vector with the zero key, the zero nonce and one zero
    block of plaintext: the blob is the nonce, the ciphertext
    [cea7403d...] and the tag [d0d1c8a7...]. *)
Definition zero_key : bytes := replicate 32 x00.
Definition zero_nonce : Rand.Reader := replicate 12 x00.
Definition zero_block_blob : bytes :=
  replicate 12 x00 ++
  [xce; xa7; x40; x3d; x4d; x60; x6b; x6e; x07; x4e; xc5; xd3; xba; xf3; x9d; x18] ++
  [xd0; xd1; xc8; xa7; x99; x99; x6b; xf0; x26; x5b; x98; xb5; xd4; x8a; xb9; x19].

(** A plaintext of 2^36 bytes, 32 more than GCM takes. *)
Definition oversize_plaintext : bytes := replicate (N.to_nat (2 ^ 36)) x00.

(** The value [value"with"quotes$and`backticks`] of the tests. *)
Definition complex_secret : bytes :=
  String.list_byte_of_string "value" ++ [x22] ++ String.list_byte_of_string "with"
  ++ [x22] ++ String.list_byte_of_string "quotes$and`backticks`".

(** A store holding, under "K", the blob of the test vector. *)
Definition store_with_secret : Db.Store :=
  Db.run_ops Db.empty_store [Db.OpSetSecret 1 "K" zero_block_blob].

(** [p] is what the server or the local command reads for [key]: the
    stored blob, decrypted under [encKey]. *)
Definition decrypts (store : Db.Store) (encKey : bytes) (key : string) (p : bytes) : Prop :=
  exists encrypted,
    Db.GetSecret store key = Ok encrypted /\ Crypto.Decrypt encrypted encKey = Ok p.

(** The export lines of [keys] with the values [plains], one after the
    other. *)
Definition exportLines (keys : list string) (plains : list bytes) : string :=
  foldr String.append "" (zip_with Main.exportLine keys plains).

(** An initialized store (zero key) that holds, under "K", the blob of the
    test vector. *)
Definition store_served : Db.Store :=
  Db.mkStore
    (Db.mkDB
       {[ "encryption_key" := String.list_byte_of_string (Hex.EncodeToString zero_key) ]}
       {[ "K" := Db.SecretRow zero_block_blob 1 1 ]} None).

(** The same store with a second secret, "L", whose blob is one byte. *)
Definition store_second_corrupt : Db.Store :=
  Db.mkStore
    (Db.mkDB
       {[ "encryption_key" := String.list_byte_of_string (Hex.EncodeToString zero_key) ]}
       (<[ "L" := Db.SecretRow [x00] 2 2 ]> {[ "K" := Db.SecretRow zero_block_blob 1 1 ]}) None).

(** The 256 byte values. *)
Definition all_bytes : list N := N.of_nat <$> seq 0 256.

(** The inverse of [AES.mixColumn]: the column times the inverse matrix
    (InvMixColumns of FIPS 197). *)
Definition inv_mixColumn (c : list N) : list N :=
  match c with
  | [t0; t1; t2; t3] =>
      [ N.lxor (N.lxor (AES.gmul 14 t0) (AES.gmul 11 t1))
          (N.lxor (AES.gmul 13 t2) (AES.gmul 9 t3));
        N.lxor (N.lxor (AES.gmul 9 t0) (AES.gmul 14 t1))
          (N.lxor (AES.gmul 11 t2) (AES.gmul 13 t3));
        N.lxor (N.lxor (AES.gmul 13 t0) (AES.gmul 9 t1))
          (N.lxor (AES.gmul 14 t2) (AES.gmul 11 t3));
        N.lxor (N.lxor (AES.gmul 11 t0) (AES.gmul 13 t1))
          (N.lxor (AES.gmul 9 t2) (AES.gmul 14 t3)) ]%N
  | _ => c
  end.

(** An AES state: 16 numbers below 256. *)
Definition is_block (st : list N) : Prop :=
  length st = 16 /\ Forall (fun x => (x < 256)%N) st.

(** * Properties *)

(** ** Bytes *)

Lemma to_N_lt_256 (b : byte) : (Byte.to_N b < 256)%N.
Proof. pose proof (Byte.to_N_bounded b). lia. Qed.

Lemma to_N_byte_of_N (n : N) : Byte.to_N (byte_of_N n) = (n mod 256)%N.
Proof.
  unfold byte_of_N.
  pose proof (Byte.to_of_N_option_map (n mod 256)) as H.
  destruct (Byte.of_N (n mod 256)) as [b|] eqn:Hb; simpl in H.
  - by apply Byte.to_of_N.
  - assert (n mod 256 < 256)%N by (apply N.mod_lt; lia).
    destruct (N.leb_spec (n mod 256) 255); [done|lia].
Qed.

Lemma byte_of_N_to_N (b : byte) : byte_of_N (Byte.to_N b) = b.
Proof.
  unfold byte_of_N.
  rewrite N.mod_small by apply to_N_lt_256. by rewrite Byte.of_to_N.
Qed.

Lemma to_N_inj (a b : byte) : Byte.to_N a = Byte.to_N b -> a = b.
Proof. intros H. by rewrite <- (byte_of_N_to_N a), <- (byte_of_N_to_N b), H. Qed.

Lemma N_lxor_lt_256 (a b : N) : (a < 256 -> b < 256 -> N.lxor a b < 256)%N.
Proof.
  intros Ha Hb.
  destruct (decide (N.lxor a b = 0%N)) as [->|Hne]; [lia|].
  change 256%N with (2 ^ 8)%N in *.
  apply N.log2_lt_pow2; [lia|].
  eapply N.le_lt_trans; [apply N.log2_lxor|].
  assert (forall x, (x < 2 ^ 8 -> N.log2 x < 8)%N) as Hlog.
  { intros x Hx. destruct (decide (x = 0%N)) as [->|]; [done|].
    apply N.log2_lt_pow2; lia. }
  apply N.max_lub_lt; by apply Hlog.
Qed.

Lemma to_N_byte_xor (a b : byte) :
  Byte.to_N (byte_xor a b) = N.lxor (Byte.to_N a) (Byte.to_N b).
Proof.
  unfold byte_xor. rewrite to_N_byte_of_N.
  apply N.mod_small, N_lxor_lt_256; apply to_N_lt_256.
Qed.

Lemma byte_xor_involutive (a b : byte) : byte_xor (byte_xor a b) b = a.
Proof.
  apply to_N_inj. rewrite !to_N_byte_xor.
  by rewrite N.lxor_assoc, N.lxor_nilpotent, N.lxor_0_r.
Qed.

Lemma byte_xor_eq_x00 (a b : byte) : byte_xor a b = x00 <-> a = b.
Proof.
  split.
  - intros H. apply to_N_inj, N.lxor_eq. by rewrite <- to_N_byte_xor, H.
  - intros ->. apply to_N_inj. by rewrite to_N_byte_xor, N.lxor_nilpotent.
Qed.

(** ** The order on keys *)

Lemma string_compare_refl (a : string) : String.compare a a = Eq.
Proof.
  induction a as [|c a IH]; simpl; [done|].
  unfold Ascii.compare. by rewrite N.compare_refl.
Qed.

Lemma string_compare_lt_trans (a b c : string) :
  String.compare a b = Lt -> String.compare b c = Lt -> String.compare a c = Lt.
Proof.
  revert b c. induction a as [|x a IH]; intros [|y b] [|z c]; simpl; try done.
  unfold Ascii.compare.
  destruct (N_of_ascii x ?= N_of_ascii y)%N eqn:Hxy;
    destruct (N_of_ascii y ?= N_of_ascii z)%N eqn:Hyz; try done; intros Hab Hbc.
  - apply N.compare_eq_iff in Hxy. rewrite Hxy, Hyz. eauto.
  - apply N.compare_eq_iff in Hxy. by rewrite Hxy, Hyz.
  - apply N.compare_eq_iff in Hyz. by rewrite <- Hyz, Hxy.
  - apply N.compare_lt_iff in Hxy, Hyz.
    assert (N_of_ascii x < N_of_ascii z)%N as H by (etrans; eauto).
    apply N.compare_lt_iff in H. by rewrite H.
Qed.

#[global] Instance key_le_total : Total key_le.
Proof. intros a b. apply String.leb_total. Qed.

#[global] Instance key_le_trans : Transitive key_le.
Proof.
  intros a b c. unfold key_le, String.leb.
  destruct (String.compare a b) eqn:Hab; [|
    destruct (String.compare b c) eqn:Hbc |]; try done.
  - apply String.compare_eq_iff in Hab as ->. done.
  - apply String.compare_eq_iff in Hbc as <-. by rewrite Hab.
  - by rewrite (string_compare_lt_trans a b c).
Qed.

Lemma key_le_neq_lt (a b : string) : key_le a b -> a <> b -> key_lt a b.
Proof.
  unfold key_le, key_lt, String.leb, String.ltb.
  destruct (String.compare a b) eqn:Hab; try done.
  apply String.compare_eq_iff in Hab. done.
Qed.

Lemma StronglySorted_le_NoDup_lt (l : list string) :
  StronglySorted key_le l -> NoDup l -> StronglySorted key_lt l.
Proof.
  induction 1 as [|x l Hl IH Hx]; intros Hnd; [constructor|].
  apply NoDup_cons in Hnd as [Hx_notin Hnd].
  constructor; [by apply IH|].
  rewrite Forall_forall in Hx |- *. intros y Hy.
  apply key_le_neq_lt; [by apply Hx|]. intros ->. by apply Hx_notin.
Qed.

(** ** The store *)

Section store.
Import Db.

Lemma scan_keys_Ok (rows keys : list string) :
  scan_keys (Ok <$> rows) keys = Ok (keys ++ rows).
Proof.
  revert keys. induction rows as [|r rows IH]; intros keys; simpl.
  - by rewrite app_nil_r.
  - rewrite IH, <- app_assoc. done.
Qed.

Lemma apply_op_frame (s : Store) (o : secret_op) :
  config (db (apply_op s o)) = config (db s) /\
  driver_err (db (apply_op s o)) = driver_err (db s).
Proof.
  destruct s as [[c m e]], o as [now key v|key]; simpl.
  - unfold SetSecret, Exec_replace_secret; simpl. by destruct e.
  - unfold DeleteSecret, Exec_delete_secret; simpl. destruct e; [done|]; simpl.
    by destruct (m !! key).
Qed.

Lemma run_ops_frame (ops : list secret_op) (s : Store) :
  config (db (run_ops s ops)) = config (db s) /\
  driver_err (db (run_ops s ops)) = driver_err (db s).
Proof.
  unfold run_ops. revert s. induction ops as [|o ops IH]; intros s; simpl; [done|].
  destruct (IH (apply_op s o)) as [-> ->]. apply apply_op_frame.
Qed.

Lemma ListSecrets_healthy (s : Store) :
  driver_err (db s) = None ->
  ListSecrets s = Ok (merge_sort key_le (fst <$> map_to_list (secrets (db s)))).
Proof.
  intros H. unfold ListSecrets, Query_secret_keys. rewrite H. simpl.
  by rewrite scan_keys_Ok.
Qed.

Lemma DeleteSecret_cases (s : Store) (key : string) :
  DeleteSecret s key =
    match driver_err (db s) with
    | Some msg => Err (Wrapped "failed to delete secret" (DriverError msg))
    | None =>
        match secrets (db s) !! key with
        | None => Err ErrNotFound
        | Some _ =>
            Ok (mkStore (mkDB (config (db s)) (delete key (secrets (db s))) None))
        end
    end.
Proof.
  unfold DeleteSecret, Exec_delete_secret.
  destruct (driver_err (db s)); [done|]. simpl.
  by destruct (secrets (db s) !! key).
Qed.

(** C5.  [DeleteSecret] returns [ErrNotFound] exactly when the statement ran
    (no storage error) and affected no row, that is, when the key is not in
    the secrets table; it succeeds exactly when the statement ran and the key
    was there; and after a successful [DeleteSecret], [GetSecret] of the same
    key returns [ErrNotFound]. *)
Theorem DeleteSecret_NotFound (s : Store) (key : string) :
  (DeleteSecret s key = Err ErrNotFound <->
     driver_err (db s) = None /\ secrets (db s) !! key = None) /\
  ((exists s', DeleteSecret s key = Ok s') <->
     driver_err (db s) = None /\ is_Some (secrets (db s) !! key)) /\
  (forall s', DeleteSecret s key = Ok s' -> GetSecret s' key = Err ErrNotFound).
Proof.
  rewrite DeleteSecret_cases.
  destruct (driver_err (db s)) as [msg|] eqn:He;
    [|destruct (secrets (db s) !! key) as [r|] eqn:Hk].
  - split_and!; [split; [done|by intros [? _]] | split; [by intros [? ?]|by intros [? _]] | done].
  - split_and!.
    + split; [done|]. by intros [_ ?].
    + split; [eauto|]. intros _. eauto.
    + intros s' [= <-]. unfold GetSecret, QueryRow_secrets_value. simpl.
      by rewrite lookup_delete_eq.
  - split_and!.
    + done.
    + split; [by intros [? ?]|]. intros [_ [? ?]]. done.
    + done.
Qed.

Lemma DeleteSecret_NotFound_witness :
  DeleteSecret store_bac "z" = Err ErrNotFound /\
  exists s', DeleteSecret store_bac "a" = Ok s' /\ GetSecret s' "a" = Err ErrNotFound.
Proof.
  destruct (DeleteSecret_NotFound store_bac "z") as (Habsent & _ & _).
  destruct (DeleteSecret_NotFound store_bac "a") as (_ & Hpresent & Hgone).
  split.
  - apply Habsent. split; reflexivity.
  - destruct Hpresent as [_ [s' Hs']].
    { split; [reflexivity|]. vm_compute. eauto. }
    exists s'. split; [exact Hs'|]. apply Hgone, Hs'.
Defined.

(** C6.  On a store whose engine answers, [ListSecrets] returns a list that
    holds exactly the keys of the secrets table, each once, in strictly
    ascending byte-wise order; on an empty table the list is empty (and the
    call is no error). *)
Theorem ListSecrets_sorted (s : Store) :
  driver_err (db s) = None ->
  exists keys,
    ListSecrets s = Ok keys /\
    (forall k, k ∈ keys <-> is_Some (secrets (db s) !! k)) /\
    NoDup keys /\
    StronglySorted key_lt keys /\
    (secrets (db s) = ∅ -> keys = []).
Proof.
  intros Hok. eexists. split; [by apply ListSecrets_healthy|].
  set (m := secrets (db s)).
  assert (merge_sort key_le (fst <$> map_to_list m) ≡ₚ fst <$> map_to_list m) as Hperm
    by apply merge_sort_Permutation.
  assert (NoDup (merge_sort key_le (fst <$> map_to_list m))) as Hnd.
  { rewrite Hperm. apply NoDup_fst_map_to_list. }
  split_and!.
  - intros k. rewrite Hperm, list_elem_of_fmap. split.
    + intros [[k' v] [-> Hin]]. apply elem_of_map_to_list in Hin. eauto.
    + intros [v Hv]. exists (k, v). split; [done|]. by apply elem_of_map_to_list.
  - done.
  - apply StronglySorted_le_NoDup_lt; [|done].
    apply StronglySorted_merge_sort; apply _.
  - intros ->. by rewrite map_to_list_empty.
Qed.

Lemma ListSecrets_sorted_witness :
  exists keys,
    ListSecrets store_bac = Ok keys /\
    (forall k, k ∈ keys <-> is_Some (secrets (db store_bac) !! k)) /\
    NoDup keys /\
    StronglySorted key_lt keys /\
    (secrets (db store_bac) = ∅ -> keys = []).
Proof. apply (ListSecrets_sorted store_bac). reflexivity. Defined.

Example ListSecrets_bac : ListSecrets store_bac = Ok ["a"; "b"; "c"].
Proof. vm_compute. reflexivity. Qed.

Example ListSecrets_empty : ListSecrets empty_store = Ok [].
Proof. vm_compute. reflexivity. Qed.

(** C10.  No run of [SetSecret] and [DeleteSecret] calls changes what
    [GetConfig] returns, for any config name: the two tables are keyed
    independently.  In particular a secret named "encryption_key" can be
    stored and deleted without touching the stored encryption key. *)
Theorem secret_ops_preserve_config (ops : list secret_op) (s : Store) (name : string) :
  GetConfig (run_ops s ops) name = GetConfig s name /\
  (forall now v,
     GetConfig (apply_op s (OpSetSecret now "encryption_key" v)) "encryption_key"
     = GetConfig s "encryption_key") /\
  GetConfig (apply_op s (OpDeleteSecret "encryption_key")) "encryption_key"
  = GetConfig s "encryption_key".
Proof.
  assert (forall s1 s2, config (db s1) = config (db s2) ->
            driver_err (db s1) = driver_err (db s2) ->
            forall n, GetConfig s1 n = GetConfig s2 n) as Hframe.
  { intros s1 s2 Hc He n. unfold GetConfig, QueryRow_config_value. by rewrite Hc, He. }
  split_and!.
  - apply Hframe; apply run_ops_frame.
  - intros now v. apply Hframe; apply apply_op_frame.
  - apply Hframe; apply apply_op_frame.
Qed.

End store.

(** ** Upsert *)



(** ** encoding/hex *)

Lemma hex_digits_of_byte (v : byte) :
  let hi := nth (N.to_nat (N.shiftr (Byte.to_N v) 4)) Hex.hextable x00 in
  let lo := nth (N.to_nat (N.land (Byte.to_N v) 15)) Hex.hextable x00 in
  (15 <? Hex.reverseHexTable hi)%N = false /\
  (15 <? Hex.reverseHexTable lo)%N = false /\
  byte_of_N (N.lor (N.shiftl (Hex.reverseHexTable hi) 4) (Hex.reverseHexTable lo)) = v.
Proof. destruct v; vm_compute; done. Qed.

Lemma Decode_Encode (key : bytes) : Hex.Decode (Hex.Encode key) = (key, None).
Proof.
  induction key as [|v key IH]; [done|].
  destruct (hex_digits_of_byte v) as (Hhi & Hlo & Hv).
  cbn [Hex.Encode Hex.Decode]. cbv zeta in Hhi, Hlo, Hv.
  by rewrite Hhi, Hlo, IH, Hv.
Qed.

Lemma DecodeString_EncodeToString (key : bytes) :
  Hex.DecodeString (Hex.EncodeToString key) = (key, None).
Proof.
  unfold Hex.DecodeString, Hex.EncodeToString.
  by rewrite String.list_byte_of_string_of_list_byte, Decode_Encode.
Qed.

Lemma list_pair_ind {A} (P : list A -> Prop) :
  P [] -> (forall x, P [x]) -> (forall x y l, P l -> P (x :: y :: l)) ->
  forall l, P l.
Proof.
  intros H0 H1 H2 l.
  enough (P l /\ forall x, P (x :: l)) as [? _] by done.
  induction l as [|y l [IHl IHyl]]; [by split|].
  split; [done|]. intros x. by apply H2.
Qed.

(** A string decodes exactly when it has an even number of characters, all
    of them hex digits; it then yields half as many bytes. *)
Lemma Decode_ok_iff (src : bytes) :
  (Hex.Decode src).2 = None <-> Nat.Even (length src) /\ Forall is_hex_digit src.
Proof.
  induction src as [|p|p q src IH] using list_pair_ind.
  - split; [|done]. intros _. split; [by exists 0|constructor].
  - simpl. split.
    + by destruct (15 <? Hex.reverseHexTable p)%N.
    + intros [[k Hk] _]. simpl in Hk. lia.
  - cbn [Hex.Decode]. unfold is_hex_digit in *.
    destruct (N.ltb_spec 15 (Hex.reverseHexTable p)) as [Hp|Hp].
    { split; [done|]. intros [_ H]. inversion H; subst. lia. }
    destruct (N.ltb_spec 15 (Hex.reverseHexTable q)) as [Hq|Hq].
    { split; [done|]. intros [_ H]. inversion H as [|? ? ? H']; subst.
      inversion H'; subst. lia. }
    destruct (Hex.Decode src) as [dst err] eqn:Hd. simpl in *.
    rewrite IH. split.
    + intros [[k Hk] Hall]. split; [exists (S k); simpl; lia|].
      by repeat constructor.
    + intros [[k Hk] Hall]. simpl in Hk. split; [exists (k - 1); lia|].
      inversion Hall as [|? ? ? H']; subst. by inversion H'.
Qed.

Lemma Decode_ok_length (src : bytes) :
  (Hex.Decode src).2 = None -> length (Hex.Decode src).1 = length src / 2.
Proof.
  induction src as [|p|p q src IH] using list_pair_ind.
  - done.
  - simpl. by destruct (15 <? Hex.reverseHexTable p)%N.
  - cbn [Hex.Decode].
    destruct (15 <? Hex.reverseHexTable p)%N; [done|].
    destruct (15 <? Hex.reverseHexTable q)%N; [done|].
    destruct (Hex.Decode src) as [dst err] eqn:Hd. cbn [fst snd] in *.
    intros Herr. cbn [length]. rewrite (IH Herr).
    replace (S (S (length src))) with (length src + 1 * 2) by lia.
    rewrite Nat.div_add by done. lia.
Qed.

(** ** Key management *)

Section key_manager.
Import Main.

Lemma GetConfig_healthy (store : Db.Store) (name : string) :
  Db.driver_err (Db.db store) = None ->
  Db.GetConfig store name =
    match Db.config (Db.db store) !! name with
    | Some v => Ok v
    | None => Err Db.ErrNotFound
    end.
Proof.
  intros H. unfold Db.GetConfig, Db.QueryRow_config_value. rewrite H.
  by destruct (Db.config (Db.db store) !! name).
Qed.

Lemma getStoreAndKey_entry (store : Db.Store) (keyHex : bytes) :
  Db.driver_err (Db.db store) = None ->
  Db.config (Db.db store) !! "encryption_key" = Some keyHex ->
  getStoreAndKey (Ok store) =
    match Hex.Decode keyHex with
    | (_, Some err) => Err (CorruptKey err)
    | (key, None) => Ok (store, key)
    end.
Proof.
  intros Hok Hentry. unfold getStoreAndKey.
  rewrite GetConfig_healthy, Hentry by done.
  unfold Hex.DecodeString. by rewrite String.list_byte_of_string_of_list_byte.
Qed.

(** C3, as stated, fails: an entry that decodes to two bytes is returned as
    the key, and no [CorruptKey] is reported. *)
Lemma getStoreAndKey_no_length_check :
  getStoreAndKey (Ok store_short_key) = Ok (store_short_key, [xab; xcd]).
Proof. vm_compute. reflexivity. Qed.

(** C3, amended.  On a store whose engine answers, [getStoreAndKey] fails
    with [NotInitialized] when the key entry is absent and with
    [CorruptKey] when the entry is not an even number of hex digits; any
    other entry decodes and is returned as the key, half as many bytes as
    the entry has digits, whatever that number is.  An entry written as the
    hex encoding of a key gives back that key. *)
Theorem getStoreAndKey_decoded (store : Db.Store) :
  Db.driver_err (Db.db store) = None ->
  (Db.config (Db.db store) !! "encryption_key" = None ->
     getStoreAndKey (Ok store) = Err NotInitialized) /\
  (forall keyHex, Db.config (Db.db store) !! "encryption_key" = Some keyHex ->
     (~ (Nat.Even (length keyHex) /\ Forall is_hex_digit keyHex) ->
        exists cause, getStoreAndKey (Ok store) = Err (CorruptKey cause)) /\
     (Nat.Even (length keyHex) /\ Forall is_hex_digit keyHex ->
        exists key, getStoreAndKey (Ok store) = Ok (store, key) /\
                    length key = length keyHex / 2) /\
     (forall key, keyHex = String.list_byte_of_string (Hex.EncodeToString key) ->
        getStoreAndKey (Ok store) = Ok (store, key))).
Proof.
  intros Hok. split.
  - intros Habsent. unfold getStoreAndKey. by rewrite GetConfig_healthy, Habsent.
  - intros keyHex Hentry. rewrite (getStoreAndKey_entry store keyHex Hok Hentry).
    pose proof (Decode_ok_iff keyHex) as Hiff.
    pose proof (Decode_ok_length keyHex) as Hlen.
    destruct (Hex.Decode keyHex) as [key [err|]] eqn:Hd; cbn [fst snd] in *.
    + split_and!.
      * eauto.
      * intros H. by apply Hiff in H.
      * intros key' ->. unfold Hex.EncodeToString in Hd.
        by rewrite String.list_byte_of_string_of_list_byte, Decode_Encode in Hd.
    + split_and!.
      * intros H. destruct H. by apply Hiff.
      * intros _. exists key. auto.
      * intros key' ->. unfold Hex.EncodeToString in Hd.
        rewrite String.list_byte_of_string_of_list_byte, Decode_Encode in Hd.
        by injection Hd as ->.
Qed.

Lemma getStoreAndKey_decoded_witness :
  getStoreAndKey (Ok store_initialized) = Ok (store_initialized, replicate 32 x2a).
Proof.
  destruct (getStoreAndKey_decoded store_initialized eq_refl) as [_ H].
  destruct (H (String.list_byte_of_string (Hex.EncodeToString (replicate 32 x2a))) eq_refl)
    as (_ & _ & Hkey).
  exact (Hkey (replicate 32 x2a) eq_refl).
Defined.

(** C4.  On a store whose engine answers and with no key entry, [init]
    with an entropy source that delivers 32 bytes reports [Created] and
    leaves a store whose key entry is the hex encoding of those 32 bytes,
    which [getStoreAndKey] gives back; the secrets are untouched; and
    [init] on that store reports [AlreadyInitialized] and leaves it as it
    is.  On any store with a key entry, [init] reports
    [AlreadyInitialized], returns the very same store and draws no
    entropy. *)
Theorem initCmd_Run_once (store : Db.Store) (rnd : Rand.Reader) :
  Db.driver_err (Db.db store) = None ->
  (Db.config (Db.db store) !! "encryption_key" = None ->
   Crypto.KeySize <= length rnd ->
   exists store',
     initCmd_Run (Ok store) rnd = (Created, Some store', drop Crypto.KeySize rnd) /\
     length (take Crypto.KeySize rnd) = 32 /\
     Db.GetConfig store' "encryption_key"
       = Ok (String.list_byte_of_string (Hex.EncodeToString (take Crypto.KeySize rnd))) /\
     getStoreAndKey (Ok store') = Ok (store', take Crypto.KeySize rnd) /\
     Db.secrets (Db.db store') = Db.secrets (Db.db store) /\
     forall rnd', initCmd_Run (Ok store') rnd' = (AlreadyInitialized, Some store', rnd')) /\
  (is_Some (Db.config (Db.db store) !! "encryption_key") ->
   initCmd_Run (Ok store) rnd = (AlreadyInitialized, Some store, rnd)).
Proof.
  intros Hok.
  assert (forall s r, Db.driver_err (Db.db s) = None ->
            is_Some (Db.config (Db.db s) !! "encryption_key") ->
            initCmd_Run (Ok s) r = (AlreadyInitialized, Some s, r)) as Hagain.
  { intros s r Hs [v Hv]. unfold initCmd_Run. by rewrite GetConfig_healthy, Hv. }
  split; [|by apply Hagain].
  intros Habsent Hrnd.
  set (key := take Crypto.KeySize rnd).
  set (keyHex := String.list_byte_of_string (Hex.EncodeToString key)).
  set (store' := Db.mkStore (Db.mkDB (<["encryption_key" := keyHex]> (Db.config (Db.db store)))
                               (Db.secrets (Db.db store)) None)).
  assert (Db.config (Db.db store') !! "encryption_key" = Some keyHex) as Hentry
    by apply lookup_insert_eq.
  exists store'. split_and!.
  - unfold initCmd_Run. rewrite GetConfig_healthy, Habsent by done.
    unfold Crypto.GenerateKey, Rand.ReadFull. rewrite decide_True by done.
    unfold Db.SetConfig, Db.Exec_replace_config. by rewrite Hok.
  - unfold key. rewrite length_take. unfold Crypto.KeySize in *. lia.
  - by rewrite GetConfig_healthy, Hentry.
  - rewrite (getStoreAndKey_entry store' keyHex eq_refl Hentry).
    unfold keyHex, Hex.EncodeToString.
    by rewrite String.list_byte_of_string_of_list_byte, Decode_Encode.
  - done.
  - intros rnd'. apply Hagain; [done|]. by rewrite Hentry.
Qed.

Lemma initCmd_Run_once_witness :
  initCmd_Run (Ok store_initialized) [] = (AlreadyInitialized, Some store_initialized, []) /\
  exists store',
    initCmd_Run (Ok Db.empty_store) (replicate 32 x2a)
      = (Created, Some store', drop Crypto.KeySize (replicate 32 x2a)) /\
    forall rnd', initCmd_Run (Ok store') rnd' = (AlreadyInitialized, Some store', rnd').
Proof.
  split.
  - apply (initCmd_Run_once store_initialized [] eq_refl).
    vm_compute. eauto.
  - destruct (initCmd_Run_once Db.empty_store (replicate 32 x2a) eq_refl) as [H _].
    destruct (H eq_refl) as (store' & Hrun & _ & _ & _ & _ & Hagain).
    { vm_compute. lia. }
    exists store'. split; [exact Hrun|exact Hagain].
Defined.

End key_manager.

(** ** GCM over any 16-byte block cipher *)

Section gcm.
Import Cipher.

Lemma length_be_bytes (n : nat) (v : N) : length (be_bytes n v) = n.
Proof.
  revert v. induction n as [|n IH]; intros v; simpl; [done|].
  rewrite length_app, IH. simpl. lia.
Qed.

Lemma length_xorBytes (a b : bytes) :
  length (xorBytes a b) = Nat.min (length a) (length b).
Proof. apply length_zip_with. Qed.

Lemma xorBytes_involutive (p ks : bytes) :
  length p <= length ks -> xorBytes (xorBytes p ks) ks = p.
Proof.
  revert ks. induction p as [|x p IH]; intros [|k ks] Hlen; simpl in *; try done; [lia|].
  rewrite byte_xor_involutive. f_equal. apply IH. lia.
Qed.

Lemma ConstantTimeCompare_fold (v : N) (x y : bytes) :
  length x = length y ->
  foldl (fun v p => N.lor v (Byte.to_N (byte_xor p.1 p.2))) v (zip x y) = 0%N
  <-> v = 0%N /\ x = y.
Proof.
  revert v y. induction x as [|a x IH]; intros v [|b y] Hlen; simpl in *; try done.
  - tauto.
  - rewrite IH by lia. rewrite N.lor_eq_0_iff.
    assert (Byte.to_N (byte_xor a b) = 0%N <-> a = b) as ->.
    { rewrite <- byte_xor_eq_x00. split; [|by intros ->].
      intros H. by apply to_N_inj. }
    split.
    + by intros [[-> ->] ->].
    + intros [-> [= -> ->]]. done.
Qed.

Lemma ConstantTimeCompare_eq (x y : bytes) : ConstantTimeCompare x y = 1%Z <-> x = y.
Proof.
  unfold ConstantTimeCompare. destruct (decide (length x <> length y)) as [Hne|Heq].
  - split; [done|]. intros ->. done.
  - apply dec_stable in Heq.
    pose proof (ConstantTimeCompare_fold 0 x y Heq) as H.
    destruct (N.eqb_spec
      (foldl (fun v p => N.lor v (Byte.to_N (byte_xor p.1 p.2))) 0%N (zip x y)) 0) as [E|E].
    + split; [|done]. intros _. by apply H.
    + split; [done|]. intros ->. destruct E. by apply H.
Qed.

Variable b : Block.
Hypothesis Encrypt_length : forall src, length (Encrypt b src) = 16.

Lemma length_counterStream (counter : N) (n : nat) :
  length (counterStream b counter n) = 16 * n.
Proof.
  revert counter. induction n as [|n IH]; intros counter; simpl; [done|].
  rewrite length_app, Encrypt_length, IH. lia.
Qed.

Lemma blocks_cover (n : nat) : n <= 16 * ((n + 15) / 16).
Proof.
  pose proof (Nat.div_mod_eq (n + 15) 16) as H.
  pose proof (Nat.mod_upper_bound (n + 15) 16). lia.
Qed.

Lemma length_counterCrypt (counter : N) (input : bytes) :
  length (counterCrypt b counter input) = length input.
Proof.
  unfold counterCrypt. rewrite length_xorBytes, length_counterStream.
  pose proof (blocks_cover (length input)). lia.
Qed.

Lemma counterCrypt_involutive (counter : N) (input : bytes) :
  counterCrypt b counter (counterCrypt b counter input) = input.
Proof.
  unfold counterCrypt at 1. rewrite length_counterCrypt.
  apply xorBytes_involutive. rewrite length_counterStream. apply blocks_cover.
Qed.

Variable g : gcm.
Hypothesis g_cipher : cipher g = b.
Hypothesis g_nonceSize : nonceSize g = 12.
Hypothesis g_tagSize : tagSize g = 16.

Lemma length_auth (ciphertext data : bytes) (counter : N) :
  length (auth g ciphertext data (Encrypt b (be_bytes 16 counter))) = 16.
Proof.
  unfold auth. by rewrite length_xorBytes, length_be_bytes, Encrypt_length.
Qed.

(** What [Seal] returns, and when. *)
Lemma Seal_ok (nonce plaintext : bytes) :
  length nonce = 12 ->
  (N.of_nat (length plaintext) <= gcmMaxPlaintext)%N ->
  let counter := deriveCounter nonce in
  let out := counterCrypt b (gcmInc32 counter) plaintext in
  Seal g [] nonce plaintext []
    = Ok (out ++ auth g out [] (Encrypt b (be_bytes 16 counter))).
Proof using g_cipher g_nonceSize g_tagSize.
  intros Hnonce Hmax. unfold Seal. rewrite g_nonceSize, g_cipher.
  rewrite decide_False by (by intros ?).
  destruct (N.ltb_spec gcmMaxPlaintext (N.of_nat (length plaintext))); [lia|done].
Qed.

Lemma Seal_too_large (nonce plaintext : bytes) :
  length nonce = 12 ->
  (gcmMaxPlaintext < N.of_nat (length plaintext))%N ->
  Seal g [] nonce plaintext [] = Err "crypto/cipher: message too large for GCM".
Proof using g_nonceSize g_tagSize.
  intros Hnonce Hmax. unfold Seal. rewrite g_nonceSize.
  rewrite decide_False by (by intros ?).
  destruct (N.ltb_spec gcmMaxPlaintext (N.of_nat (length plaintext))); [done|lia].
Qed.

(** [Open] on a ciphertext that splits into [body] and a 16-byte [tag]:
    the plaintext when [tag] is the tag of [body], [errOpen] otherwise. *)
Lemma Open_split (nonce body tag : bytes) :
  length nonce = 12 ->
  length tag = 16 ->
  (N.of_nat (length body) <= gcmMaxPlaintext)%N ->
  let counter := deriveCounter nonce in
  Open g [] nonce (body ++ tag) [] =
    if decide (auth g body [] (Encrypt b (be_bytes 16 counter)) = tag) then
      Ok (counterCrypt b (gcmInc32 counter) body)
    else Err errOpen.
Proof.
  intros Hnonce Htag Hmax counter. unfold Open.
  rewrite g_nonceSize, g_tagSize, g_cipher, length_app, Htag.
  rewrite decide_False by (by intros ?).
  rewrite decide_False by lia.
  destruct (N.ltb_spec (gcmMaxPlaintext + N.of_nat 16)
              (N.of_nat (length body + 16))); [lia|].
  replace (length body + 16 - 16) with (length body) by lia.
  rewrite drop_app_length, take_app_length.
  fold counter.
  rewrite take_ge by (by rewrite length_auth).
  destruct (decide (auth g body [] (Encrypt b (be_bytes 16 counter)) = tag)) as [Heq|Hne].
  - apply ConstantTimeCompare_eq in Heq. by rewrite Heq.
  - destruct (Z.eqb_spec (ConstantTimeCompare
        (auth g body [] (Encrypt b (be_bytes 16 counter))) tag) 1) as [E|E]; [|done].
    by apply ConstantTimeCompare_eq in E.
Qed.

Lemma Open_Seal (nonce plaintext sealed : bytes) :
  length nonce = 12 ->
  Seal g [] nonce plaintext [] = Ok sealed ->
  Open g [] nonce sealed [] = Ok plaintext /\
  length sealed = length plaintext + 16.
Proof.
  intros Hnonce Hseal.
  destruct (N.ltb_spec gcmMaxPlaintext (N.of_nat (length plaintext))) as [Hbig|Hmax].
  { by rewrite Seal_too_large in Hseal. }
  pose proof (Seal_ok nonce plaintext Hnonce Hmax) as Hs. cbv zeta in Hs.
  assert (sealed = counterCrypt b (gcmInc32 (deriveCounter nonce)) plaintext ++
            auth g (counterCrypt b (gcmInc32 (deriveCounter nonce)) plaintext) []
              (Encrypt b (be_bytes 16 (deriveCounter nonce)))) as -> by congruence.
  clear Hs Hseal. split.
  - rewrite Open_split; [| done | apply length_auth | by rewrite length_counterCrypt].
    rewrite decide_True by done. by rewrite counterCrypt_involutive.
  - by rewrite length_app, length_auth, length_counterCrypt.
Qed.

End gcm.

(** ** AES-256 as a block cipher *)

(** The example of FIPS 197, appendix C.3: the key [00 01 .. 1f] and the
    block [00 11 .. ff]. *)
Example NewCipher_fips197 :
  match AES.NewCipher (byte_of_N <$> (N.of_nat <$> seq 0 32)) with
  | Ok block =>
      Cipher.Encrypt block (byte_of_N <$> ((fun i => N.of_nat (17 * i)) <$> seq 0 16))
  | Err _ => []
  end
  = [x8e; xa2; xb7; xca; x51; x67; x45; xbf; xea; xfc; x49; x90; x4b; x49; x60; x89].
Proof. vm_compute. reflexivity. Qed.

Example sbox_entries : AES.sbox 0 = 99%N /\ AES.sbox 1 = 124%N /\ AES.sbox 83 = 237%N.
Proof. vm_compute. done. Qed.

Lemma length_shiftRows (st : list N) : length (AES.shiftRows st) = 16.
Proof. unfold AES.shiftRows. by rewrite length_map, length_seq. Qed.

Lemma length_expandKey_256 (key : list N) :
  length key = 32 -> length (AES.expandKey key) = 240.
Proof.
  intros Hlen.
  do 32 (destruct key as [|? key]; [done|]).
  destruct key; [|done].
  reflexivity.
Qed.

Lemma length_encryptBlock_256 (key src : list N) :
  length key = 32 -> length (AES.encryptBlock (AES.expandKey key) 14 src) = 16.
Proof.
  intros Hlen. unfold AES.encryptBlock, AES.xorWords, AES.roundKey.
  rewrite length_zip_with, length_shiftRows, length_take, length_drop.
  rewrite length_expandKey_256 by done. lia.
Qed.

Lemma NewCipher_256 (key : bytes) :
  length key = 32 ->
  exists block,
    AES.NewCipher key = Ok block /\
    Cipher.BlockSize block = 16 /\
    forall src, length (Cipher.Encrypt block src) = 16.
Proof.
  intros Hlen. unfold AES.NewCipher. rewrite Hlen.
  rewrite decide_True by auto.
  eexists. split; [done|]. split; [done|]. intros src. cbn [Cipher.Encrypt].
  rewrite length_map. change (32 / 4 + 6) with 14.
  apply length_encryptBlock_256. by rewrite length_map.
Qed.

(** ** internal/crypto *)

(** The cipher and the GCM instance are functions of the key: [b'] and
    [g'] name the ones already at hand as [b] and [g]. *)
Ltac same_instance b' g' b g :=
  assert (b' = b) as -> by congruence;
  assert (g' = g) as -> by congruence.

Section crypto.
Import Crypto.

(** The GCM instance both [Encrypt] and [Decrypt] build from a 32-byte key. *)
Lemma aes_gcm_256 (key : bytes) :
  length key = 32 ->
  exists block g,
    AES.NewCipher key = Ok block /\
    Cipher.NewGCM block = Ok g /\
    Cipher.cipher g = block /\
    Cipher.nonceSize g = 12 /\
    Cipher.tagSize g = 16 /\
    forall src, length (Cipher.Encrypt block src) = 16.
Proof.
  intros Hlen. destruct (NewCipher_256 key Hlen) as (block & Hblock & Hsize & Henc).
  exists block. eexists. split; [done|].
  unfold Cipher.NewGCM. rewrite Hsize. rewrite decide_False by (by intros ?).
  by split_and!.
Qed.

Lemma ReadFull_ok (rnd : Rand.Reader) (n : nat) :
  n <= length rnd ->
  Rand.ReadFull rnd n = (Ok (take n rnd), drop n rnd) /\ length (take n rnd) = n.
Proof.
  intros H. unfold Rand.ReadFull. rewrite decide_True by done.
  split; [done|]. rewrite length_take. lia.
Qed.

Lemma ReadFull_short (rnd : Rand.Reader) (n : nat) :
  length rnd < n -> exists err, Rand.ReadFull rnd n = (Err err, []).
Proof.
  intros H. unfold Rand.ReadFull. rewrite decide_False by lia. eauto.
Qed.

Lemma Encrypt_invalid_key (rnd : Rand.Reader) (plaintext key : bytes) :
  length key <> 32 ->
  Encrypt rnd plaintext key = (Err (InvalidKeySize (length key)), rnd).
Proof. intros H. unfold Encrypt, KeySize. by rewrite decide_True. Qed.

(** [Encrypt] under a 32-byte key, in terms of the entropy source and of
    [Seal]. *)
Lemma Encrypt_valid_key (rnd : Rand.Reader) (plaintext key : bytes)
    (block : Cipher.Block) (g : Cipher.gcm) :
  length key = 32 ->
  AES.NewCipher key = Ok block ->
  Cipher.NewGCM block = Ok g ->
  Encrypt rnd plaintext key =
    match Rand.ReadFull rnd NonceSize with
    | (Err err, rnd) => (Err (NonceFailed err), rnd)
    | (Ok nonce, rnd) =>
        match Cipher.Seal g [] nonce plaintext [] with
        | Err msg => (Err (Panicked msg), rnd)
        | Ok ciphertext => (Ok (take NonceSize nonce ++ ciphertext), rnd)
        end
    end.
Proof.
  intros Hlen Hblock Hg. unfold Encrypt, KeySize.
  rewrite decide_False by (by intros ?). by rewrite Hblock, Hg.
Qed.

Lemma Decrypt_valid_key (ciphertext key : bytes)
    (block : Cipher.Block) (g : Cipher.gcm) :
  length key = 32 ->
  NonceSize <= length ciphertext ->
  AES.NewCipher key = Ok block ->
  Cipher.NewGCM block = Ok g ->
  Decrypt ciphertext key =
    match Cipher.Open g [] (take NonceSize ciphertext) (drop NonceSize ciphertext) [] with
    | Err (Cipher.panic msg) => Err (Panicked msg)
    | Err err => Err (AuthenticationFailure err)
    | Ok plaintext => Ok plaintext
    end.
Proof.
  intros Hlen Hct Hblock Hg. unfold Decrypt, KeySize.
  rewrite decide_False by (by intros ?).
  rewrite decide_False by lia. by rewrite Hblock, Hg.
Qed.

(** What a successful [Encrypt] returned. *)
Lemma Encrypt_Ok_inv (rnd : Rand.Reader) (plaintext key blob : bytes) :
  (Encrypt rnd plaintext key).1 = Ok blob ->
  length key = 32 /\ 12 <= length rnd /\
  exists block g sealed,
    AES.NewCipher key = Ok block /\
    Cipher.NewGCM block = Ok g /\
    Cipher.Seal g [] (take 12 rnd) plaintext [] = Ok sealed /\
    blob = take 12 rnd ++ sealed.
Proof.
  intros Henc.
  destruct (decide (length key = 32)) as [Hlen|Hlen];
    [|by rewrite Encrypt_invalid_key in Henc].
  destruct (aes_gcm_256 key Hlen) as (block & g & Hblock & Hg & _).
  rewrite (Encrypt_valid_key _ _ _ block g Hlen Hblock Hg) in Henc.
  unfold NonceSize in Henc.
  destruct (decide (12 <= length rnd)) as [Hrnd|Hrnd].
  - destruct (ReadFull_ok rnd 12 Hrnd) as [Hread Hnonce]. rewrite Hread in Henc.
    destruct (Cipher.Seal g [] (take 12 rnd) plaintext []) as [sealed|msg] eqn:Hseal;
      [|done].
    cbn [fst] in Henc. rewrite take_take, Nat.min_id in Henc.
    split; [done|]. split; [done|]. exists block, g, sealed. split_and!; congruence.
  - destruct (ReadFull_short rnd 12) as [err Hread]; [lia|]. by rewrite Hread in Henc.
Qed.

(** [Encrypt] under a 32-byte key, a nonce at hand and a plaintext GCM
    takes: the blob. *)
Lemma Encrypt_Ok (rnd : Rand.Reader) (plaintext key : bytes)
    (block : Cipher.Block) (g : Cipher.gcm) :
  length key = 32 ->
  12 <= length rnd ->
  (N.of_nat (length plaintext) <= Cipher.gcmMaxPlaintext)%N ->
  AES.NewCipher key = Ok block ->
  Cipher.NewGCM block = Ok g ->
  let counter := Cipher.deriveCounter (take 12 rnd) in
  let out := Cipher.counterCrypt block (Cipher.gcmInc32 counter) plaintext in
  let tag := Cipher.auth g out [] (Cipher.Encrypt block (Cipher.be_bytes 16 counter)) in
  Cipher.Seal g [] (take 12 rnd) plaintext [] = Ok (out ++ tag) /\
  Encrypt rnd plaintext key = (Ok (take 12 rnd ++ out ++ tag), drop 12 rnd).
Proof.
  intros Hlen Hrnd Hmax Hblock Hg counter out tag.
  destruct (aes_gcm_256 key Hlen) as (block' & g' & Hblock' & Hg' & Hc & Hn & Ht & Hsize).
  same_instance block' g' block g.
  destruct (ReadFull_ok rnd 12 Hrnd) as [Hread Hnonce].
  pose proof (Seal_ok block g Hc Hn Ht (take 12 rnd) plaintext Hnonce Hmax) as Hseal.
  cbv zeta in Hseal. fold counter in Hseal. fold out in Hseal. fold tag in Hseal.
  split; [done|].
  rewrite (Encrypt_valid_key _ _ _ block g Hlen Hblock Hg).
  unfold NonceSize. rewrite Hread, Hseal. by rewrite take_take, Nat.min_id.
Qed.

(** The round trip: what [Encrypt] returned, [Decrypt] opens. *)
Lemma Decrypt_blob (rnd : Rand.Reader) (plaintext key blob : bytes) :
  (Encrypt rnd plaintext key).1 = Ok blob -> Decrypt blob key = Ok plaintext.
Proof.
  intros Henc.
  apply Encrypt_Ok_inv in Henc
    as (Hlen & Hrnd & block & g & sealed & Hblock & Hg & Hseal & ->).
  destruct (aes_gcm_256 key Hlen) as (block' & g' & Hblock' & Hg' & Hc & Hn & Ht & Hsize).
  same_instance block' g' block g.
  assert (length (take 12 rnd) = 12) as Hnonce by (rewrite length_take; lia).
  rewrite (Decrypt_valid_key _ _ block g Hlen) by
    (try done; unfold NonceSize; rewrite length_app; lia).
  unfold NonceSize.
  rewrite take_app_length', drop_app_length' by done.
  destruct (Open_Seal block Hsize g Hc Hn Ht _ _ _ Hnonce Hseal) as [-> _]. done.
Qed.

(** C1.  For every plaintext and every 32-byte key, whatever blob [Encrypt]
    produced, [Decrypt] of that blob under the same key succeeds and
    returns the plaintext; and [Encrypt] does produce a blob once the
    entropy source delivers the 12 nonce bytes, for a plaintext GCM takes. *)
Theorem Decrypt_Encrypt (rnd : Rand.Reader) (plaintext key : bytes) :
  length key = 32 ->
  (forall blob, (Encrypt rnd plaintext key).1 = Ok blob ->
     Decrypt blob key = Ok plaintext) /\
  (12 <= length rnd ->
   (N.of_nat (length plaintext) <= Cipher.gcmMaxPlaintext)%N ->
   exists blob, (Encrypt rnd plaintext key).1 = Ok blob).
Proof.
  intros Hlen. split.
  - intros blob. apply Decrypt_blob.
  - intros Hrnd Hmax.
    destruct (aes_gcm_256 key Hlen) as (block & g & Hblock & Hg & _).
    destruct (Encrypt_Ok rnd plaintext key block g Hlen Hrnd Hmax Hblock Hg) as [_ ->].
    eauto.
Qed.

Lemma Decrypt_Encrypt_witness :
  (Encrypt zero_nonce (replicate 16 x00) zero_key).1 = Ok zero_block_blob /\
  Decrypt zero_block_blob zero_key = Ok (replicate 16 x00).
Proof.
  assert ((Encrypt zero_nonce (replicate 16 x00) zero_key).1 = Ok zero_block_blob) as H
    by (vm_compute; reflexivity).
  split; [exact H|].
  destruct (Decrypt_Encrypt zero_nonce (replicate 16 x00) zero_key eq_refl) as [Hdec _].
  exact (Hdec zero_block_blob H).
Defined.

Lemma Encrypt_too_large (rnd : Rand.Reader) (plaintext key : bytes) :
  length key = 32 ->
  12 <= length rnd ->
  (Cipher.gcmMaxPlaintext < N.of_nat (length plaintext))%N ->
  (Encrypt rnd plaintext key).1 = Err (Panicked "crypto/cipher: message too large for GCM").
Proof.
  intros Hlen Hrnd Hbig.
  destruct (aes_gcm_256 key Hlen) as (block & g & Hblock & Hg & Hc & Hn & Ht & Hsize).
  rewrite (Encrypt_valid_key _ _ _ block g Hlen Hblock Hg).
  destruct (ReadFull_ok rnd 12 Hrnd) as [Hread Hnonce].
  unfold NonceSize. rewrite Hread.
  by rewrite (Seal_too_large g Hn Ht (take 12 rnd) plaintext Hnonce Hbig).
Qed.

(** C8, as stated, fails: under a 32-byte key [Encrypt] returns no blob
    for a plaintext of 2^36 bytes, on which the GCM implementation panics,
    nor when the entropy source delivers no nonce. *)
Lemma Encrypt_valid_key_no_blob :
  (Encrypt zero_nonce oversize_plaintext zero_key).1
    = Err (Panicked "crypto/cipher: message too large for GCM") /\
  (Encrypt [] [] zero_key).1 = Err (NonceFailed Rand.EOF).
Proof.
  split.
  - apply Encrypt_too_large; [reflexivity | apply Nat.eq_le_incl; reflexivity |].
    unfold oversize_plaintext. rewrite length_replicate, N2Nat.id. reflexivity.
  - vm_compute. reflexivity.
Qed.

(** C8, amended.  [Encrypt] fails with [InvalidKeySize] for every key whose
    length is not 32.  For every 32-byte key and every plaintext of at most
    [gcmMaxPlaintext] bytes, when the entropy source delivers the 12 nonce
    bytes, [Encrypt] succeeds; the blob is the nonce followed by what the
    GCM instance of that key seals, a ciphertext as long as the plaintext
    and a 16-byte tag, so it is 28 bytes longer than the plaintext and
    never empty. *)
Theorem Encrypt_blob (rnd : Rand.Reader) (plaintext key : bytes) :
  (length key <> 32 ->
     Encrypt rnd plaintext key = (Err (InvalidKeySize (length key)), rnd)) /\
  (length key = 32 ->
   12 <= length rnd ->
   (N.of_nat (length plaintext) <= Cipher.gcmMaxPlaintext)%N ->
   exists block g ciphertext tag,
     AES.NewCipher key = Ok block /\
     Cipher.NewGCM block = Ok g /\
     Cipher.Seal g [] (take 12 rnd) plaintext [] = Ok (ciphertext ++ tag) /\
     length ciphertext = length plaintext /\
     length tag = 16 /\
     Encrypt rnd plaintext key = (Ok (take 12 rnd ++ ciphertext ++ tag), drop 12 rnd) /\
     length (take 12 rnd ++ ciphertext ++ tag) = length plaintext + 28 /\
     take 12 rnd ++ ciphertext ++ tag <> []).
Proof.
  split; [apply Encrypt_invalid_key|].
  intros Hlen Hrnd Hmax.
  destruct (aes_gcm_256 key Hlen) as (block & g & Hblock & Hg & Hc & Hn & Ht & Hsize).
  destruct (Encrypt_Ok rnd plaintext key block g Hlen Hrnd Hmax Hblock Hg) as [Hseal Henc].
  cbv zeta in Hseal, Henc.
  set (counter := Cipher.deriveCounter (take 12 rnd)) in *.
  set (out := Cipher.counterCrypt block (Cipher.gcmInc32 counter) plaintext) in *.
  set (tag := Cipher.auth g out [] (Cipher.Encrypt block (Cipher.be_bytes 16 counter))) in *.
  assert (length (take 12 rnd) = 12) as Hnonce by (rewrite length_take; lia).
  assert (length out = length plaintext) as Hout by apply length_counterCrypt, Hsize.
  assert (length tag = 16) as Htag by (by apply length_auth).
  exists block, g, out, tag. split_and!; try done.
  - rewrite !length_app. lia.
  - intros H. apply (f_equal length) in H. rewrite !length_app in H. simpl in H. lia.
Qed.

(** The empty plaintext under the zero key and nonce: the blob is the
    nonce and the tag [530f8afb...]. *)
Lemma Encrypt_blob_witness :
  exists block g ciphertext tag,
    AES.NewCipher zero_key = Ok block /\
    Cipher.NewGCM block = Ok g /\
    Cipher.Seal g [] (take 12 zero_nonce) [] [] = Ok (ciphertext ++ tag) /\
    length ciphertext = length (@nil byte) /\
    length tag = 16 /\
    Encrypt zero_nonce [] zero_key
      = (Ok (take 12 zero_nonce ++ ciphertext ++ tag), drop 12 zero_nonce) /\
    length (take 12 zero_nonce ++ ciphertext ++ tag) = length (@nil byte) + 28 /\
    take 12 zero_nonce ++ ciphertext ++ tag <> [].
Proof.
  apply (Encrypt_blob zero_nonce [] zero_key).
  - reflexivity.
  - apply Nat.eq_le_incl. reflexivity.
  - vm_compute. discriminate.
Defined.

Example Encrypt_empty_plaintext :
  (Encrypt zero_nonce [] zero_key).1 =
  Ok (replicate 12 x00 ++
      [x53; x0f; x8a; xfb; xc7; x45; x36; xb9; xa9; x63; xb4; xf1; xc4; xcb; x73; x8b]).
Proof. vm_compute. reflexivity. Qed.

End crypto.

(** ** How [Decrypt] fails *)

Section decrypt_failures.
Import Crypto.

Lemma Open_Ok_or_errOpen (block : Cipher.Block) (g : Cipher.gcm) (nonce ciphertext : bytes) :
  Cipher.nonceSize g = 12 ->
  length nonce = 12 ->
  Cipher.Open g [] nonce ciphertext [] = Err Cipher.errOpen \/
  exists plaintext, Cipher.Open g [] nonce ciphertext [] = Ok plaintext.
Proof.
  intros Hn Hnonce. unfold Cipher.Open. rewrite Hn.
  rewrite decide_False by (intros H; apply H, Hnonce).
  repeat (case_match; eauto).
Qed.

(** X1.  [Decrypt] checks the key first, then the length of the blob; under a
    32-byte key every blob of 12 bytes or more is either opened or
    rejected with the one error [AuthenticationFailure errOpen]. *)
Theorem Decrypt_failures (blob key : bytes) :
  (length key <> 32 -> Decrypt blob key = Err (InvalidKeySize (length key))) /\
  (length key = 32 -> length blob < 12 ->
     Decrypt blob key = Err (MalformedCiphertext (length blob))) /\
  (length key = 32 -> 12 <= length blob ->
     Decrypt blob key = Err (AuthenticationFailure Cipher.errOpen) \/
     exists plaintext, Decrypt blob key = Ok plaintext).
Proof.
  split_and!.
  - intros H. unfold Decrypt, KeySize. by rewrite decide_True.
  - intros Hk Hb. unfold Decrypt, KeySize, NonceSize.
    rewrite decide_False by (intros H; apply H, Hk). by rewrite decide_True.
  - intros Hk Hb.
    destruct (aes_gcm_256 key Hk) as (block & g & Hblock & Hg & Hc & Hn & Ht & Hsize).
    rewrite (Decrypt_valid_key _ _ block g Hk Hb Hblock Hg).
    destruct (Open_Ok_or_errOpen block g (take NonceSize blob) (drop NonceSize blob) Hn)
      as [->|[plaintext ->]]; eauto.
    rewrite length_take. unfold NonceSize. lia.
Qed.

Lemma Decrypt_failures_witness :
  Decrypt zero_block_blob [x00] = Err (InvalidKeySize 1) /\
  Decrypt [x00; x01] zero_key = Err (MalformedCiphertext 2).
Proof.
  split.
  - apply (Decrypt_failures zero_block_blob [x00]). discriminate.
  - apply (Decrypt_failures [x00; x01] zero_key); [reflexivity|].
    apply Nat.leb_le. reflexivity.
Defined.

Lemma byte_xor_mask_neq (b mask : byte) : mask <> x00 -> byte_xor b mask <> b.
Proof.
  intros Hmask Heq. apply Hmask, to_N_inj.
  apply (f_equal Byte.to_N) in Heq. rewrite to_N_byte_xor in Heq.
  apply (f_equal (N.lxor (Byte.to_N b))) in Heq.
  by rewrite <- N.lxor_assoc, N.lxor_nilpotent, N.lxor_0_l in Heq.
Qed.

Lemma alter_changes (f : byte -> byte) (l : bytes) (i : nat) :
  i < length l -> (forall x, f x <> x) -> alter f i l <> l.
Proof.
  intros Hi Hf Heq.
  destruct (lookup_lt_is_Some_2 l i Hi) as [x Hx].
  apply (f_equal (fun l => l !! i)) in Heq.
  rewrite list_lookup_alter_eq, Hx in Heq. simpl in Heq.
  injection Heq as Heq. by apply (Hf x).
Qed.

(** X2.  Flipping bits of any one byte of the tag (the last 16 bytes) of a blob
    that [Encrypt] produced makes [Decrypt] fail with
    [AuthenticationFailure]. *)
Theorem Decrypt_tampered_tag (rnd : Rand.Reader) (plaintext key blob : bytes)
    (i : nat) (mask : byte) :
  (Encrypt rnd plaintext key).1 = Ok blob ->
  mask <> x00 ->
  12 + length plaintext <= i < length blob ->
  Decrypt (flip_byte mask i blob) key = Err (AuthenticationFailure Cipher.errOpen).
Proof.
  intros Henc Hmask Hi.
  apply Encrypt_Ok_inv in Henc
    as (Hlen & Hrnd & block & g & sealed & Hblock & Hg & Hseal & ->).
  destruct (aes_gcm_256 key Hlen) as (block' & g' & Hblock' & Hg' & Hc & Hn & Ht & Hsize).
  same_instance block' g' block g.
  assert (length (take 12 rnd) = 12) as Hnonce by (rewrite length_take; lia).
  destruct (N.ltb_spec Cipher.gcmMaxPlaintext (N.of_nat (length plaintext))) as [Hbig|Hmax].
  { by rewrite (Seal_too_large g Hn Ht _ _ Hnonce Hbig) in Hseal. }
  pose proof (Seal_ok block g Hc Hn Ht _ _ Hnonce Hmax) as Hs. cbv zeta in Hs.
  set (counter := Cipher.deriveCounter (take 12 rnd)) in *.
  set (out := Cipher.counterCrypt block (Cipher.gcmInc32 counter) plaintext) in *.
  set (tag := Cipher.auth g out [] (Cipher.Encrypt block (Cipher.be_bytes 16 counter))) in *.
  assert (sealed = out ++ tag) as -> by congruence.
  assert (length out = length plaintext) as Hout by apply length_counterCrypt, Hsize.
  assert (length tag = 16) as Htag by (by apply length_auth).
  rewrite !length_app in Hi.
  unfold flip_byte.
  rewrite alter_app_r_alt by lia. rewrite alter_app_r_alt by lia.
  set (tag' := alter (fun b => byte_xor b mask) (i - length (take 12 rnd) - length out) tag).
  assert (length tag' = 16) as Htag' by (unfold tag'; by rewrite length_alter).
  assert (tag' <> tag) as Hne.
  { apply alter_changes; [lia|]. intros x. by apply byte_xor_mask_neq. }
  rewrite (Decrypt_valid_key _ _ block g Hlen) by
    (try done; unfold NonceSize; rewrite length_app; lia).
  unfold NonceSize.
  rewrite take_app_length', drop_app_length' by done.
  rewrite (Open_split block Hsize g Hc Hn Ht) by (try done; lia).
  fold counter. fold tag. by rewrite decide_False.
Qed.

(** The blob of the test vector with its last byte xored with [0xff]. *)
Lemma Decrypt_tampered_tag_witness :
  Decrypt (flip_byte xff 43 zero_block_blob) zero_key
  = Err (AuthenticationFailure Cipher.errOpen).
Proof.
  apply (Decrypt_tampered_tag zero_nonce (replicate 16 x00) zero_key zero_block_blob 43 xff).
  - vm_compute. reflexivity.
  - discriminate.
  - split; apply Nat.leb_le; reflexivity.
Defined.

(** One more check against the tests: the first byte after the nonce
    flipped, and another key. *)
Example Decrypt_tampered_ciphertext :
  Decrypt (flip_byte xff 12 zero_block_blob) zero_key
  = Err (AuthenticationFailure Cipher.errOpen).
Proof. vm_compute. reflexivity. Qed.

Example Decrypt_wrong_key :
  Decrypt zero_block_blob (replicate 32 x01)
  = Err (AuthenticationFailure Cipher.errOpen).
Proof. vm_compute. reflexivity. Qed.

End decrypt_failures.

(** ** The export line *)

Section env_format.
Import Main.

Lemma escaper_table (b : byte) :
  match Strings.replacements escaper b with
  | Some new => new
  | None => [b]
  end = escape_byte b.
Proof. destruct b; vm_compute; reflexivity. Qed.

Lemma Replace_escaper (value : bytes) :
  Strings.Replace escaper (String.string_of_list_byte value)
  = String.string_of_list_byte (flat_map escape_byte value).
Proof.
  unfold Strings.Replace. rewrite String.list_byte_of_string_of_list_byte.
  f_equal. induction value as [|b value IH]; [done|].
  cbn [flat_map]. by rewrite escaper_table, IH.
Qed.

Lemma dq_expand_escape (plaintext : bytes) :
  dq_expand (flat_map escape_byte plaintext) = Some plaintext.
Proof.
  induction plaintext as [|b plaintext IH]; [done|].
  cbn [flat_map]. unfold escape_byte at 1.
  destruct (decide (shell_special b)) as [Hb|Hb].
  - cbn [app dq_expand]. rewrite decide_True by done.
    rewrite decide_True by (unfold shell_special in Hb; tauto).
    by rewrite IH.
  - cbn [app dq_expand]. unfold shell_special in Hb.
    rewrite decide_False by tauto. rewrite decide_False by tauto.
    by rewrite IH.
Qed.

Lemma escape_no_newline (plaintext : bytes) :
  x0a ∉ plaintext -> x0a ∉ flat_map escape_byte plaintext.
Proof.
  induction plaintext as [|b plaintext IH]; [done|].
  rewrite not_elem_of_cons. intros [Hb Hrest]. cbn [flat_map].
  rewrite not_elem_of_app. split; [|by apply IH].
  unfold escape_byte. destruct (decide (shell_special b)).
  - rewrite !not_elem_of_cons. split_and!; [done|done|]. apply not_elem_of_nil.
  - rewrite not_elem_of_cons. split; [done|]. apply not_elem_of_nil.
Qed.

(** C2.  For every plaintext without a newline, the export line is
    [export KEY="<escaped>"] followed by a newline, where [<escaped>] is the
    plaintext with each backslash, double quote, dollar sign and backtick
    replaced by a backslash and itself and every other byte kept (one pass,
    nothing escaped twice); the value a POSIX shell gives the double-quoted
    word [<escaped>] is the plaintext; and [<escaped>] holds no newline. *)
Theorem exportLine_roundtrip (key : string) (plaintext : bytes) :
  x0a ∉ plaintext ->
  exists escaped : bytes,
    exportLine key plaintext
      = "export " +:+ key +:+ "=" +:+ dquote +:+ String.string_of_list_byte escaped
        +:+ dquote +:+ newline /\
    escaped = flat_map escape_byte plaintext /\
    dq_expand escaped = Some plaintext /\
    x0a ∉ escaped.
Proof.
  intros Hnl. exists (flat_map escape_byte plaintext). split_and!.
  - unfold exportLine. by rewrite Replace_escaper.
  - done.
  - apply dq_expand_escape.
  - by apply escape_no_newline.
Qed.

Lemma exportLine_roundtrip_witness :
  exists escaped : bytes,
    exportLine "COMPLEX_SECRET" complex_secret
      = "export " +:+ "COMPLEX_SECRET" +:+ "=" +:+ dquote
        +:+ String.string_of_list_byte escaped +:+ dquote +:+ newline /\
    escaped = flat_map escape_byte complex_secret /\
    dq_expand escaped = Some complex_secret /\
    x0a ∉ escaped.
Proof.
  apply (exportLine_roundtrip "COMPLEX_SECRET" complex_secret).
  apply (bool_decide_unpack _). vm_compute. exact I.
Defined.

Example exportLine_complex_secret :
  String.list_byte_of_string (exportLine "K" complex_secret) =
  String.list_byte_of_string "export K=" ++ [x22]
  ++ String.list_byte_of_string "value\" ++ [x22]
  ++ String.list_byte_of_string "with\" ++ [x22]
  ++ String.list_byte_of_string "quotes\$and\`backticks\`" ++ [x22; x0a].
Proof. vm_compute. reflexivity. Qed.

End env_format.

(** ** The handler of [/secrets/] *)

Section remote.
Import Main.

Lemma substring_0_length (s : string) : String.substring 0 (String.length s) s = s.
Proof. induction s as [|c s IH]; simpl; [done|]. by rewrite IH. Qed.

Lemma prefix_empty (s : string) : String.prefix "" s = true.
Proof. by destruct s. Qed.

Lemma TrimPrefix_secrets (key : string) :
  Strings.TrimPrefix ("/secrets/" +:+ key) "/secrets/" = key.
Proof.
  unfold Strings.TrimPrefix, Strings.HasPrefix. simpl.
  rewrite prefix_empty, Nat.sub_0_r. apply substring_0_length.
Qed.

Lemma GetSecret_healthy (store : Db.Store) (key : string) :
  Db.driver_err (Db.db store) = None ->
  Db.GetSecret store key =
    match Db.secrets (Db.db store) !! key with
    | Some row => Ok (Db.row_value row)
    | None => Err Db.ErrNotFound
    end.
Proof.
  intros H. unfold Db.GetSecret, Db.QueryRow_secrets_value. rewrite H.
  by destruct (Db.secrets (Db.db store) !! key).
Qed.

Lemma GetSecret_driver_error (store : Db.Store) (key msg : string) :
  Db.driver_err (Db.db store) = Some msg ->
  Db.GetSecret store key = Err (Db.Wrapped "failed to get secret" (Db.DriverError msg)).
Proof. intros H. unfold Db.GetSecret, Db.QueryRow_secrets_value. by rewrite H. Qed.

(** C9.  The response of the get-one handler to the path [/secrets/<key>]:
    status 400 when [<key>] is empty; otherwise 404 when the engine answers
    and the key is not in the secrets table, 500 when [GetSecret] fails
    with any other error (such as a driver error) or when [Decrypt] fails,
    and else 200 with the decrypted value as the body, sent as
    [text/plain]. *)
Theorem secretHandler_response (store : Db.Store) (encKey : bytes) (key : string) :
  let w := secretHandler store encKey Http.NewResponse ("/secrets/" +:+ key) in
  (key = "" -> Http.status w = Some 400%Z) /\
  (key <> "" ->
     (Db.driver_err (Db.db store) = None ->
      Db.secrets (Db.db store) !! key = None ->
      Http.status w = Some 404%Z) /\
     (forall err, Db.GetSecret store key = Err err -> err <> Db.ErrNotFound ->
        Http.status w = Some 500%Z) /\
     (forall msg, Db.driver_err (Db.db store) = Some msg ->
        Http.status w = Some 500%Z) /\
     (forall encrypted, Db.GetSecret store key = Ok encrypted ->
        match Crypto.Decrypt encrypted encKey with
        | Err _ => Http.status w = Some 500%Z
        | Ok decrypted =>
            Http.status w = Some 200%Z /\
            Http.body w = decrypted /\
            Http.sent_header w !! "Content-Type" = Some "text/plain"
        end)).
Proof.
  intros w. unfold w, secretHandler. rewrite TrimPrefix_secrets. split.
  - intros ->. done.
  - intros Hkey. rewrite decide_False by done.
    split_and!.
    + intros Hok Habsent. by rewrite GetSecret_healthy, Habsent.
    + intros err -> Hne. by destruct err.
    + intros msg Hmsg. by rewrite (GetSecret_driver_error _ _ _ Hmsg).
    + intros encrypted ->. by destruct (Crypto.Decrypt encrypted encKey).
Qed.

Lemma secretHandler_response_witness :
  let w := secretHandler store_with_secret zero_key Http.NewResponse "/secrets/K" in
  Http.status w = Some 200%Z /\
  Http.body w = replicate 16 x00 /\
  Http.sent_header w !! "Content-Type" = Some "text/plain".
Proof.
  destruct (secretHandler_response store_with_secret zero_key "K") as [_ H].
  destruct H as (_ & _ & _ & H); [done|].
  exact (H zero_block_blob eq_refl).
Defined.

Example secretHandler_empty_key :
  Http.status (secretHandler store_with_secret zero_key Http.NewResponse "/secrets/")
  = Some 400%Z.
Proof. vm_compute. reflexivity. Qed.

Example secretHandler_absent_key :
  Http.status (secretHandler store_with_secret zero_key Http.NewResponse "/secrets/Z")
  = Some 404%Z.
Proof. vm_compute. reflexivity. Qed.

Example secretHandler_wrong_key :
  Http.status
    (secretHandler store_with_secret (replicate 32 x01) Http.NewResponse "/secrets/K")
  = Some 500%Z.
Proof. vm_compute. reflexivity. Qed.

End remote.

(** ** From [set] to [get], locally and through the server *)

Section end_to_end.
Import Main.

Lemma getStoreAndKey_hex (store : Db.Store) (encKey : bytes) :
  Db.driver_err (Db.db store) = None ->
  Db.config (Db.db store) !! "encryption_key"
    = Some (String.list_byte_of_string (Hex.EncodeToString encKey)) ->
  getStoreAndKey (Ok store) = Ok (store, encKey).
Proof.
  intros Hok Hentry. rewrite (getStoreAndKey_entry store _ Hok Hentry).
  unfold Hex.EncodeToString.
  by rewrite String.list_byte_of_string_of_list_byte, Decode_Encode.
Qed.

(** X4.  On an initialized store whose engine answers, [set KEY VALUE] stores
    the secret, after which [get KEY] prints [VALUE] and the server's
    get-one handler answers 200 with [VALUE] as the body. *)
Theorem set_then_get (store : Db.Store) (encKey : bytes) (rnd : Rand.Reader)
    (now : Z) (key value : string) :
  Db.driver_err (Db.db store) = None ->
  Db.config (Db.db store) !! "encryption_key"
    = Some (String.list_byte_of_string (Hex.EncodeToString encKey)) ->
  length encKey = 32 ->
  12 <= length rnd ->
  (N.of_nat (length (String.list_byte_of_string value)) <= Cipher.gcmMaxPlaintext)%N ->
  exists store',
    setCmd_Run (Ok store) rnd now key value = (SecretSet, Some store', drop 12 rnd) /\
    getCmd_Run (Ok store') key = Printed value /\
    (key <> "" ->
     let w := secretHandler store' encKey Http.NewResponse ("/secrets/" +:+ key) in
     Http.status w = Some 200%Z /\ Http.body w = String.list_byte_of_string value).
Proof.
  intros Hok Hentry Hlen Hrnd Hmax.
  destruct (aes_gcm_256 encKey Hlen) as (block & g & Hblock & Hg & _).
  destruct (Encrypt_Ok rnd _ encKey block g Hlen Hrnd Hmax Hblock Hg) as [_ Henc].
  cbv zeta in Henc.
  set (blob := take 12 rnd ++ _) in Henc.
  assert (Crypto.Decrypt blob encKey = Ok (String.list_byte_of_string value)) as Hdec.
  { apply (Decrypt_blob rnd). by rewrite Henc. }
  set (store' := Db.mkStore (Db.mkDB (Db.config (Db.db store))
                   (<[key := Db.SecretRow blob now now]> (Db.secrets (Db.db store))) None)).
  assert (Db.GetSecret store' key = Ok blob) as Hget.
  { rewrite GetSecret_healthy by done. simpl. by rewrite lookup_insert_eq. }
  assert (getStoreAndKey (Ok store') = Ok (store', encKey)) as Hkey'
    by (by apply getStoreAndKey_hex).
  exists store'. split_and!.
  - unfold setCmd_Run. rewrite (getStoreAndKey_hex store encKey Hok Hentry), Henc.
    unfold Db.SetSecret, Db.Exec_replace_secret. by rewrite Hok.
  - unfold getCmd_Run. rewrite Hkey', Hget, Hdec.
    by rewrite String.string_of_list_byte_of_string.
  - intros Hne w. unfold w, secretHandler. rewrite TrimPrefix_secrets.
    rewrite decide_False by done. by rewrite Hget, Hdec.
Qed.

Lemma set_then_get_witness :
  exists store',
    setCmd_Run (Ok store_initialized) zero_nonce 1 "K" "v"
      = (SecretSet, Some store', drop 12 zero_nonce) /\
    getCmd_Run (Ok store') "K" = Printed "v" /\
    ("K" <> "" ->
     let w := secretHandler store' (replicate 32 x2a) Http.NewResponse
                ("/secrets/" +:+ "K") in
     Http.status w = Some 200%Z /\ Http.body w = String.list_byte_of_string "v").
Proof.
  apply (set_then_get store_initialized (replicate 32 x2a) zero_nonce 1 "K" "v").
  - reflexivity.
  - reflexivity.
  - reflexivity.
  - apply Nat.eq_le_incl. reflexivity.
  - vm_compute. discriminate.
Defined.

End end_to_end.

(** ** More on internal/crypto *)

Section crypto_more.
Import Crypto.

(** X5.  Under a 32-byte key, a blob of 12 to 27 bytes passes the length
    check of [Decrypt] but has no room for a tag: it is rejected as an
    authentication failure, not as a malformed ciphertext. *)
Theorem Decrypt_no_room_for_tag (blob key : bytes) :
  length key = 32 ->
  12 <= length blob < 28 ->
  Decrypt blob key = Err (AuthenticationFailure Cipher.errOpen).
Proof.
  intros Hlen [Hlo Hhi].
  destruct (aes_gcm_256 key Hlen) as (block & g & Hblock & Hg & Hc & Hn & Ht & Hsize).
  rewrite (Decrypt_valid_key _ _ block g Hlen Hlo Hblock Hg).
  unfold Cipher.Open, NonceSize. rewrite Hn, Ht, length_take, length_drop.
  rewrite decide_False by lia. by rewrite decide_True by lia.
Qed.

Lemma Decrypt_no_room_for_tag_witness :
  Decrypt (replicate 27 x00) zero_key = Err (AuthenticationFailure Cipher.errOpen).
Proof.
  apply Decrypt_no_room_for_tag; [reflexivity|].
  split; apply Nat.leb_le; reflexivity.
Defined.

Lemma GenerateKey_Ok_inv (rnd rnd' : Rand.Reader) (key : bytes) :
  GenerateKey rnd = (Ok key, rnd') ->
  length key = 32 /\ key = take 32 rnd /\ rnd' = drop 32 rnd.
Proof.
  intros Hgen. unfold GenerateKey, KeySize in Hgen.
  destruct (decide (32 <= length rnd)) as [Hrnd|Hrnd].
  - destruct (ReadFull_ok rnd 32 Hrnd) as [Hread Hkey]. rewrite Hread in Hgen.
    injection Hgen as <- <-. done.
  - destruct (ReadFull_short rnd 32) as [err Hread]; [lia|]. by rewrite Hread in Hgen.
Qed.

(** X6.  [GenerateKey] returns the next 32 bytes of the entropy source, or
    an error when the source has fewer, never a shorter key; and a key it
    returned works: [Encrypt] under it draws the next 12 bytes as the
    nonce, and [Decrypt] of the blob under it returns the plaintext. *)
Theorem GenerateKey_Encrypt_Decrypt (rnd : Rand.Reader) (plaintext : bytes) :
  (forall key rnd', GenerateKey rnd = (Ok key, rnd') ->
     length key = 32 /\ key = take 32 rnd /\ rnd' = drop 32 rnd) /\
  (length rnd < 32 -> exists cause, GenerateKey rnd = (Err (KeyGenerationFailed cause), [])) /\
  (44 <= length rnd ->
   (N.of_nat (length plaintext) <= Cipher.gcmMaxPlaintext)%N ->
   exists key blob,
     GenerateKey rnd = (Ok key, drop 32 rnd) /\
     Encrypt (drop 32 rnd) plaintext key = (Ok blob, drop 44 rnd) /\
     take 12 blob = take 12 (drop 32 rnd) /\
     Decrypt blob key = Ok plaintext).
Proof.
  split_and!.
  - intros key rnd'. apply GenerateKey_Ok_inv.
  - intros Hrnd. destruct (ReadFull_short rnd 32 Hrnd) as [err Hread].
    exists err. unfold GenerateKey, KeySize. by rewrite Hread.
  - intros Hrnd Hmax.
    destruct (ReadFull_ok rnd 32) as [Hread Hkey]; [lia|].
    assert (12 <= length (drop 32 rnd)) as Hrnd' by (rewrite length_drop; lia).
    destruct (aes_gcm_256 (take 32 rnd) Hkey) as (block & g & Hblock & Hg & _).
    destruct (Encrypt_Ok (drop 32 rnd) plaintext (take 32 rnd) block g
                Hkey Hrnd' Hmax Hblock Hg) as [_ Henc].
    cbv zeta in Henc. rewrite drop_drop in Henc.
    eexists _, _. split_and!.
    + unfold GenerateKey, KeySize. by rewrite Hread.
    + exact Henc.
    + rewrite take_app_length'; [done|]. rewrite length_take. lia.
    + apply (Decrypt_blob (drop 32 rnd)). by rewrite Henc.
Qed.

Lemma GenerateKey_Encrypt_Decrypt_witness :
  exists key blob,
    GenerateKey (replicate 44 x00) = (Ok key, drop 32 (replicate 44 x00)) /\
    Encrypt (drop 32 (replicate 44 x00)) [x68; x69] key
      = (Ok blob, drop 44 (replicate 44 x00)) /\
    take 12 blob = take 12 (drop 32 (replicate 44 x00)) /\
    Decrypt blob key = Ok [x68; x69].
Proof.
  destruct (GenerateKey_Encrypt_Decrypt (replicate 44 x00) [x68; x69]) as (_ & _ & H).
  apply H.
  - apply Nat.leb_le. reflexivity.
  - vm_compute. discriminate.
Defined.




End crypto_more.

(** ** More on internal/db *)

Section store_more.
Import Db.

Lemma ListSecrets_elem (s : Store) :
  driver_err (db s) = None ->
  exists keys,
    ListSecrets s = Ok keys /\
    forall k, k ∈ keys <-> is_Some (secrets (db s) !! k).
Proof.
  intros Hok. eexists. split; [by apply ListSecrets_healthy|].
  intros k. rewrite merge_sort_Permutation, list_elem_of_fmap. split.
  - intros [[k' v] [-> Hin]]. apply elem_of_map_to_list in Hin. eauto.
  - intros [v Hv]. exists (k, v). split; [done|]. by apply elem_of_map_to_list.
Qed.





End store_more.

(** ** The commands *)

Section commands.
Import Main.

Lemma getStoreAndKey_decodes (store : Db.Store) (keyHex encKey : bytes) :
  Db.driver_err (Db.db store) = None ->
  Db.config (Db.db store) !! "encryption_key" = Some keyHex ->
  Hex.Decode keyHex = (encKey, None) ->
  getStoreAndKey (Ok store) = Ok (store, encKey).
Proof.
  intros Hok Hentry Hdec. rewrite (getStoreAndKey_entry store keyHex Hok Hentry).
  by rewrite Hdec.
Qed.


Lemma Decrypt_invalid_key (blob key : bytes) :
  length key <> 32 -> Crypto.Decrypt blob key = Err (Crypto.InvalidKeySize (length key)).
Proof. intros H. unfold Crypto.Decrypt, Crypto.KeySize. by rewrite decide_True. Qed.

(** X10.  When the stored key entry decodes to a key that is not 32 bytes
    long, the key is still handed to the commands, and the length is
    checked where the key is used: [set] fails with [InvalidKeySize]
    before reading any entropy and before writing; [get] and the get-one
    handler fail on every stored secret ([InvalidKeySize], status 500);
    [env] fails on the first key if there is one; [list] and [delete],
    which do not use the key, work. *)
Theorem commands_under_wrong_length_key (store : Db.Store) (keyHex encKey : bytes) :
  Db.driver_err (Db.db store) = None ->
  Db.config (Db.db store) !! "encryption_key" = Some keyHex ->
  Hex.Decode keyHex = (encKey, None) ->
  length encKey <> 32 ->
  (forall rnd now key value,
     setCmd_Run (Ok store) rnd now key value
     = (SetEncryptFailed (Crypto.InvalidKeySize (length encKey)), Some store, rnd)) /\
  (forall key, is_Some (Db.secrets (Db.db store) !! key) ->
     getCmd_Run (Ok store) key = GetDecryptFailed (Crypto.InvalidKeySize (length encKey)) /\
     (key <> "" ->
      Http.status (secretHandler store encKey Http.NewResponse ("/secrets/" +:+ key))
      = Some 500%Z) /\
     exists store', deleteCmd_Run (Ok store) key = (SecretDeleted, Some store')) /\
  (exists keys,
     Db.ListSecrets store = Ok keys /\
     envCmdRun (Ok store) =
       match keys with
       | [] => ("", EnvDone)
       | key :: _ => ("", EnvDecryptFailed key (Crypto.InvalidKeySize (length encKey)))
       end) /\
  (exists stdout, listCmd_Run (Ok store) = Listed stdout).
Proof.
  intros Hok Hentry Hdec Hlen.
  pose proof (getStoreAndKey_decodes store keyHex encKey Hok Hentry Hdec) as Hkey.
  destruct (ListSecrets_elem store Hok) as (keys & Hkeys & Hin).
  split_and!.
  - intros rnd now key value. unfold setCmd_Run.
    by rewrite Hkey, Encrypt_invalid_key.
  - intros key [row Hrow].
    assert (Db.GetSecret store key = Ok (Db.row_value row)) as Hget
      by (by rewrite GetSecret_healthy, Hrow).
    split_and!.
    + unfold getCmd_Run. by rewrite Hkey, Hget, Decrypt_invalid_key.
    + intros Hne. unfold secretHandler. rewrite TrimPrefix_secrets.
      rewrite decide_False by done. by rewrite Hget, Decrypt_invalid_key.
    + unfold deleteCmd_Run. rewrite Hkey, DeleteSecret_cases, Hok, Hrow. eauto.
  - exists keys. split; [done|]. unfold envCmdRun. rewrite Hkey, Hkeys.
    destruct keys as [|key keys]; [done|].
    destruct (proj1 (Hin key)) as [row Hrow]; [left|].
    simpl. by rewrite GetSecret_healthy, Hrow, Decrypt_invalid_key.
  - unfold listCmd_Run. rewrite Hkey, Hkeys. case_decide; eauto.
Qed.

Lemma commands_under_wrong_length_key_witness :
  setCmd_Run (Ok store_short_key) zero_nonce 1 "K" "v"
  = (SetEncryptFailed (Crypto.InvalidKeySize 2), Some store_short_key, zero_nonce) /\
  exists stdout, listCmd_Run (Ok store_short_key) = Listed stdout.
Proof.
  destruct (commands_under_wrong_length_key store_short_key
              (String.list_byte_of_string "abcd") [xab; xcd]) as (Hset & _ & _ & Hlist).
  - reflexivity.
  - reflexivity.
  - vm_compute. reflexivity.
  - simpl. lia.
  - split; [apply Hset | exact Hlist].
Defined.

(** X11.  Before [init], that is while the key entry is absent, [set],
    [get], [delete], [list] and [env] all fail with [NotInitialized]: none
    of them reads entropy, writes, or prints, whatever the secrets table
    holds. *)
Theorem commands_need_init (store : Db.Store) (rnd : Rand.Reader) (now : Z)
    (key value : string) :
  Db.driver_err (Db.db store) = None ->
  Db.config (Db.db store) !! "encryption_key" = None ->
  setCmd_Run (Ok store) rnd now key value = (SetKeyFailed NotInitialized, None, rnd) /\
  getCmd_Run (Ok store) key = GetKeyFailed NotInitialized /\
  deleteCmd_Run (Ok store) key = (DeleteKeyFailed NotInitialized, None) /\
  listCmd_Run (Ok store) = ListKeyFailed NotInitialized /\
  envCmdRun (Ok store) = ("", EnvKeyFailed NotInitialized).
Proof.
  intros Hok Hentry.
  assert (getStoreAndKey (Ok store) = Err NotInitialized) as Hkey.
  { unfold getStoreAndKey. by rewrite GetConfig_healthy, Hentry. }
  unfold setCmd_Run, getCmd_Run, deleteCmd_Run, listCmd_Run, envCmdRun.
  by rewrite Hkey.
Qed.

Lemma commands_need_init_witness :
  setCmd_Run (Ok store_bac) zero_nonce 1 "K" "v" = (SetKeyFailed NotInitialized, None, zero_nonce) /\
  getCmd_Run (Ok store_bac) "a" = GetKeyFailed NotInitialized /\
  deleteCmd_Run (Ok store_bac) "a" = (DeleteKeyFailed NotInitialized, None) /\
  listCmd_Run (Ok store_bac) = ListKeyFailed NotInitialized /\
  envCmdRun (Ok store_bac) = ("", EnvKeyFailed NotInitialized).
Proof.
  destruct (commands_need_init store_bac zero_nonce 1 "a" "v") as (_ & Hget & Hdel & Hlist & Henv);
    [reflexivity..|].
  destruct (commands_need_init store_bac zero_nonce 1 "K" "v") as (Hset & _); [reflexivity..|].
  done.
Defined.

(** X12.  From a fresh store to a first secret: with 44 bytes of entropy at
    hand, [init] creates the key from the first 32; [list] then prints "No
    secrets found"; [set KEY VALUE] stores the secret using the next 12
    bytes as the nonce; after that [get KEY] prints [VALUE], [list] prints
    [KEY] on a line, and [env] prints the one export line of [KEY]. *)
Theorem init_set_get_list (store : Db.Store) (rnd : Rand.Reader) (now : Z)
    (key value : string) :
  Db.driver_err (Db.db store) = None ->
  Db.config (Db.db store) !! "encryption_key" = None ->
  Db.secrets (Db.db store) = ∅ ->
  44 <= length rnd ->
  (N.of_nat (length (String.list_byte_of_string value)) <= Cipher.gcmMaxPlaintext)%N ->
  exists store1 store2,
    initCmd_Run (Ok store) rnd = (Created, Some store1, drop 32 rnd) /\
    listCmd_Run (Ok store1) = Listed ("No secrets found" +:+ newline) /\
    setCmd_Run (Ok store1) (drop 32 rnd) now key value
      = (SecretSet, Some store2, drop 44 rnd) /\
    getCmd_Run (Ok store2) key = Printed value /\
    listCmd_Run (Ok store2) = Listed (key +:+ newline) /\
    envCmdRun (Ok store2) = (exportLine key (String.list_byte_of_string value), EnvDone).
Proof.
  intros Hok Hentry Hempty Hrnd Hmax.
  destruct (ReadFull_ok rnd 32) as [Hread Hlen]; [lia|].
  set (encKey := take 32 rnd) in *.
  assert (12 <= length (drop 32 rnd)) as Hrnd' by (rewrite length_drop; lia).
  destruct (aes_gcm_256 encKey Hlen) as (block & g & Hblock & Hg & _).
  destruct (Encrypt_Ok (drop 32 rnd) _ encKey block g Hlen Hrnd' Hmax Hblock Hg) as [_ Henc].
  cbv zeta in Henc. rewrite drop_drop in Henc.
  set (blob := take 12 (drop 32 rnd) ++ _) in Henc.
  assert (Crypto.Decrypt blob encKey = Ok (String.list_byte_of_string value)) as Hdec.
  { apply (Decrypt_blob (drop 32 rnd)). by rewrite Henc. }
  set (cfg := <["encryption_key" := String.list_byte_of_string (Hex.EncodeToString encKey)]>
                (Db.config (Db.db store))).
  set (store1 := Db.mkStore (Db.mkDB cfg (Db.secrets (Db.db store)) None)).
  set (store2 := Db.mkStore (Db.mkDB cfg (<[key := Db.SecretRow blob now now]>
                                             (Db.secrets (Db.db store))) None)).
  assert (getStoreAndKey (Ok store1) = Ok (store1, encKey)) as Hkey1.
  { apply getStoreAndKey_hex; [done|]. apply lookup_insert_eq. }
  assert (getStoreAndKey (Ok store2) = Ok (store2, encKey)) as Hkey2.
  { apply getStoreAndKey_hex; [done|]. apply lookup_insert_eq. }
  assert (Db.GetSecret store2 key = Ok blob) as Hget.
  { rewrite GetSecret_healthy by done. simpl. by rewrite lookup_insert_eq. }
  assert (Db.ListSecrets store2 = Ok [key]) as Hlist2.
  { rewrite ListSecrets_healthy by done. simpl.
    rewrite Hempty, insert_empty, map_to_list_singleton. done. }
  exists store1, store2. split_and!.
  - unfold initCmd_Run. rewrite GetConfig_healthy, Hentry by done.
    unfold Crypto.GenerateKey, Crypto.KeySize. rewrite Hread.
    unfold Db.SetConfig, Db.Exec_replace_config. by rewrite Hok.
  - unfold listCmd_Run. rewrite Hkey1, ListSecrets_healthy by done. simpl.
    by rewrite Hempty, map_to_list_empty.
  - unfold setCmd_Run. by rewrite Hkey1, Henc.
  - unfold getCmd_Run. rewrite Hkey2, Hget, Hdec.
    by rewrite String.string_of_list_byte_of_string.
  - unfold listCmd_Run. by rewrite Hkey2, Hlist2.
  - unfold envCmdRun. rewrite Hkey2, Hlist2. simpl. by rewrite Hget, Hdec.
Qed.

Lemma init_set_get_list_witness :
  exists store1 store2,
    initCmd_Run (Ok Db.empty_store) (replicate 44 x00)
      = (Created, Some store1, drop 32 (replicate 44 x00)) /\
    listCmd_Run (Ok store1) = Listed ("No secrets found" +:+ newline) /\
    setCmd_Run (Ok store1) (drop 32 (replicate 44 x00)) 1 "K" "v"
      = (SecretSet, Some store2, drop 44 (replicate 44 x00)) /\
    getCmd_Run (Ok store2) "K" = Printed "v" /\
    listCmd_Run (Ok store2) = Listed ("K" +:+ newline) /\
    envCmdRun (Ok store2) = (exportLine "K" (String.list_byte_of_string "v"), EnvDone).
Proof.
  apply (init_set_get_list Db.empty_store (replicate 44 x00) 1 "K" "v").
  - reflexivity.
  - reflexivity.
  - reflexivity.
  - apply Nat.leb_le. reflexivity.
  - vm_compute. discriminate.
Defined.

(** X13.  On an initialized store whose engine answers, [delete KEY] of a
    stored secret succeeds, after which [get KEY] and a second [delete
    KEY] both report that the secret is not found and the get-one handler
    answers 404, while [get] of every other key prints what it printed
    before; [delete] of a key that is not
    stored reports not found and leaves the store as it is. *)
Theorem deleteCmd_Run_then_get (store : Db.Store) (keyHex encKey : bytes) (key : string) :
  Db.driver_err (Db.db store) = None ->
  Db.config (Db.db store) !! "encryption_key" = Some keyHex ->
  Hex.Decode keyHex = (encKey, None) ->
  (is_Some (Db.secrets (Db.db store) !! key) ->
   exists store',
     deleteCmd_Run (Ok store) key = (SecretDeleted, Some store') /\
     getCmd_Run (Ok store') key = SecretNotFound key /\
     deleteCmd_Run (Ok store') key = (DeleteNotFound key, Some store') /\
     (key <> "" ->
      Http.status (secretHandler store' encKey Http.NewResponse ("/secrets/" +:+ key))
      = Some 404%Z) /\
     forall other, other <> key -> getCmd_Run (Ok store') other = getCmd_Run (Ok store) other) /\
  (Db.secrets (Db.db store) !! key = None ->
   deleteCmd_Run (Ok store) key = (DeleteNotFound key, Some store)).
Proof.
  intros Hok Hentry Hdec.
  pose proof (getStoreAndKey_decodes store keyHex encKey Hok Hentry Hdec) as Hkey.
  split.
  - intros [row Hrow].
    set (store' := Db.mkStore (Db.mkDB (Db.config (Db.db store))
                                 (delete key (Db.secrets (Db.db store))) None)).
    assert (getStoreAndKey (Ok store') = Ok (store', encKey)) as Hkey'
      by (by apply (getStoreAndKey_decodes store' keyHex)).
    exists store'. split_and!.
    + unfold deleteCmd_Run. by rewrite Hkey, DeleteSecret_cases, Hok, Hrow.
    + unfold getCmd_Run. rewrite Hkey', GetSecret_healthy by done. simpl.
      by rewrite lookup_delete_eq.
    + unfold deleteCmd_Run. rewrite Hkey', DeleteSecret_cases. simpl.
      by rewrite lookup_delete_eq.
    + intros Hne. unfold secretHandler. rewrite TrimPrefix_secrets.
      rewrite decide_False by done. rewrite GetSecret_healthy by done. simpl.
      by rewrite lookup_delete_eq.
    + intros other Hne. unfold getCmd_Run. rewrite Hkey, Hkey'.
      rewrite !GetSecret_healthy by done. simpl. by rewrite lookup_delete_ne.
  - intros Habsent. unfold deleteCmd_Run.
    by rewrite Hkey, DeleteSecret_cases, Hok, Habsent.
Qed.

Lemma deleteCmd_Run_then_get_witness :
  exists store',
    deleteCmd_Run (Ok store_served) "K" = (SecretDeleted, Some store') /\
    getCmd_Run (Ok store') "K" = SecretNotFound "K" /\
    deleteCmd_Run (Ok store') "K" = (DeleteNotFound "K", Some store') /\
    ("K" <> "" ->
     Http.status (secretHandler store' zero_key Http.NewResponse ("/secrets/" +:+ "K"))
     = Some 404%Z) /\
    forall other, other <> "K" ->
      getCmd_Run (Ok store') other = getCmd_Run (Ok store_served) other.
Proof.
  apply (deleteCmd_Run_then_get store_served
           (String.list_byte_of_string (Hex.EncodeToString zero_key)) zero_key "K").
  - reflexivity.
  - reflexivity.
  - vm_compute. reflexivity.
  - vm_compute. eauto.
Defined.

End commands.

(** ** The export of all secrets *)

Section env.
Import Main.

Lemma string_append_assoc (a b c : string) : (a +:+ b) +:+ c = a +:+ (b +:+ c).
Proof.
  induction a as [|x a IH]; [done|].
  change (String x ((a +:+ b) +:+ c) = String x (a +:+ (b +:+ c))). by rewrite IH.
Qed.

Lemma string_append_nil_r (a : string) : a +:+ "" = a.
Proof.
  induction a as [|x a IH]; [done|].
  change (String x (a +:+ "") = String x a). by rewrite IH.
Qed.

Lemma list_byte_of_string_append (a b : string) :
  String.list_byte_of_string (a +:+ b)
  = String.list_byte_of_string a ++ String.list_byte_of_string b.
Proof.
  induction a as [|x a IH]; [done|].
  change (String.list_byte_of_string (String x a +:+ b))
    with (byte_of_ascii x :: String.list_byte_of_string (a +:+ b)).
  by rewrite IH.
Qed.

Lemma exportLine_append_nonempty (key : string) (decrypted : bytes) (rest : string) :
  exportLine key decrypted +:+ rest <> "".
Proof. done. Qed.

(** The loop of the local [env]: the keys split into those printed and
    the rest, which is empty or starts with the key that failed. *)
Lemma envLoop_spec (store : Db.Store) (encKey : bytes) (keys : list string) (stdout : string) :
  exists printed plains rest,
    keys = printed ++ rest /\
    Forall2 (decrypts store encKey) printed plains /\
    (envLoop store encKey keys stdout).1 = stdout +:+ exportLines printed plains /\
    match (envLoop store encKey keys stdout).2 with
    | EnvDone => rest = []
    | EnvGetFailed key err =>
        exists rest', rest = key :: rest' /\ Db.GetSecret store key = Err err
    | EnvDecryptFailed key err =>
        exists rest' encrypted,
          rest = key :: rest' /\
          Db.GetSecret store key = Ok encrypted /\
          Crypto.Decrypt encrypted encKey = Err err
    | _ => False
    end.
Proof.
  revert stdout. induction keys as [|key keys IH]; intros stdout.
  - exists [], [], []. simpl. by rewrite string_append_nil_r.
  - simpl. destruct (Db.GetSecret store key) as [encrypted|err] eqn:Hget.
    + destruct (Crypto.Decrypt encrypted encKey) as [decrypted|err] eqn:Hdec.
      * destruct (IH (stdout +:+ exportLine key decrypted))
          as (printed & plains & rest & -> & Hall & Hout & Hend).
        exists (key :: printed), (decrypted :: plains), rest. split_and!.
        -- done.
        -- constructor; [by exists encrypted|done].
        -- rewrite Hout. unfold exportLines. simpl. apply string_append_assoc.
        -- done.
      * exists [], [], (key :: keys). simpl. rewrite string_append_nil_r.
        split_and!; eauto.
    + exists [], [], (key :: keys). simpl. rewrite string_append_nil_r.
      split_and!; eauto.
Qed.

(** The loop of the [/env] handler next to the loop of the local [env]:
    the body grows by what the local loop prints, followed on a failure by
    the error text; the status is that of the first write. *)
Lemma envHandlerLoop_envLoop (store : Db.Store) (encKey : bytes) (keys : list string)
    (w : Http.ResponseWriter) (stdout : string) :
  let w' := envHandlerLoop store encKey keys w in
  exists added,
    (envLoop store encKey keys stdout).1 = stdout +:+ added /\
    match (envLoop store encKey keys stdout).2 with
    | EnvDone =>
        Http.body w' = Http.body w ++ String.list_byte_of_string added /\
        Http.status w' =
          (if decide (added = "") then Http.status w
           else Some (default Http.StatusOK (Http.status w)))
    | EnvGetFailed _ err =>
        Http.body w' = Http.body w ++ String.list_byte_of_string
                                        (added +:+ "Error: " +:+ Db.Error err) /\
        Http.status w' =
          Some (default (if decide (added = "") then Http.StatusInternalServerError
                         else Http.StatusOK) (Http.status w))
    | EnvDecryptFailed _ err =>
        Http.body w' = Http.body w ++ String.list_byte_of_string
                                        (added +:+ "Error: " +:+ Crypto.Error err) /\
        Http.status w' =
          Some (default (if decide (added = "") then Http.StatusInternalServerError
                         else Http.StatusOK) (Http.status w))
    | _ => False
    end.
Proof.
  revert w stdout. induction keys as [|key keys IH]; intros w stdout.
  - exists "". simpl. by rewrite string_append_nil_r, app_nil_r.
  - simpl. destruct (Db.GetSecret store key) as [encrypted|err] eqn:Hget.
    + destruct (Crypto.Decrypt encrypted encKey) as [decrypted|err] eqn:Hdec.
      * destruct (IH (Http.Fprint w (exportLine key decrypted))
                    (stdout +:+ exportLine key decrypted)) as (added & Hout & Hend).
        exists (exportLine key decrypted +:+ added).
        split; [by rewrite Hout, string_append_assoc|].
        rewrite (decide_False (P := _ +:+ added = "")) by done.
        assert (Http.status (Http.Fprint w (exportLine key decrypted))
                = Some (default Http.StatusOK (Http.status w))) as Hst
          by (by destruct w as [h [c|] sh b]).
        assert (Http.body (Http.Fprint w (exportLine key decrypted))
                = Http.body w ++ String.list_byte_of_string (exportLine key decrypted)) as Hbody
          by (by destruct w as [h [c|] sh b]).
        rewrite Hst, Hbody in Hend.
        destruct (envLoop _ _ _ _).2; try done;
          destruct Hend as [-> ->];
          rewrite <- ?app_assoc, <- ?list_byte_of_string_append, ?string_append_assoc;
          (split; [done|]); by case_decide.
      * exists "". simpl. rewrite string_append_nil_r. split; [done|].
        by destruct w as [h [c|] sh b].
    + exists "". simpl. rewrite string_append_nil_r. split; [done|].
      by destruct w as [h [c|] sh b].
Qed.

Lemma exportLines_empty (keys : list string) (plains : list bytes) :
  length keys = length plains ->
  exportLines keys plains = "" <-> keys = [].
Proof. destruct keys, plains; done. Qed.

Lemma Served_status (w : Http.ResponseWriter) :
  Http.Served w = Http.mkHttpResponse (default Http.StatusOK (Http.status w)) (Http.body w).
Proof. unfold Http.Served. by destruct (Http.status w). Qed.

(** X14.  The local [env] on an initialized store whose engine answers:
    the keys are listed in ascending order and the export lines are
    printed one after the other for as long as the secrets decrypt.  The
    command ends normally when all did; otherwise it fails at the first
    secret that does not decrypt, with the lines of the keys before it
    already printed.  A key that was listed is always found. *)
Theorem envCmdRun_stream (store : Db.Store) (keyHex encKey : bytes) :
  Db.driver_err (Db.db store) = None ->
  Db.config (Db.db store) !! "encryption_key" = Some keyHex ->
  Hex.Decode keyHex = (encKey, None) ->
  exists keys printed plains rest,
    Db.ListSecrets store = Ok keys /\
    keys = printed ++ rest /\
    Forall2 (decrypts store encKey) printed plains /\
    (envCmdRun (Ok store)).1 = exportLines printed plains /\
    match rest with
    | [] => (envCmdRun (Ok store)).2 = EnvDone
    | key :: _ =>
        exists encrypted err,
          Db.GetSecret store key = Ok encrypted /\
          Crypto.Decrypt encrypted encKey = Err err /\
          (envCmdRun (Ok store)).2 = EnvDecryptFailed key err
    end.
Proof.
  intros Hok Hentry Hdec.
  pose proof (getStoreAndKey_decodes store keyHex encKey Hok Hentry Hdec) as Hkey.
  destruct (ListSecrets_elem store Hok) as (keys & Hkeys & Hin).
  destruct (envLoop_spec store encKey keys "") as (printed & plains & rest & Heq & Hall & Hout & Hend).
  exists keys, printed, plains, rest. unfold envCmdRun. rewrite Hkey, Hkeys.
  split_and!; [done..|].
  destruct (envLoop store encKey keys "").2 as [| | |key err|key err]; try done.
  - by rewrite Hend.
  - destruct Hend as (rest' & -> & Hget).
    destruct (proj1 (Hin key)) as [row Hrow].
    { rewrite Heq. apply elem_of_app. right. left. }
    by rewrite GetSecret_healthy, Hrow in Hget.
  - destruct Hend as (rest' & encrypted & -> & Hget & Hfail). eauto.
Qed.

Lemma envCmdRun_stream_witness :
  exists keys printed plains rest,
    Db.ListSecrets store_second_corrupt = Ok keys /\
    keys = printed ++ rest /\
    Forall2 (decrypts store_second_corrupt zero_key) printed plains /\
    (envCmdRun (Ok store_second_corrupt)).1 = exportLines printed plains /\
    match rest with
    | [] => (envCmdRun (Ok store_second_corrupt)).2 = EnvDone
    | key :: _ =>
        exists encrypted err,
          Db.GetSecret store_second_corrupt key = Ok encrypted /\
          Crypto.Decrypt encrypted zero_key = Err err /\
          (envCmdRun (Ok store_second_corrupt)).2 = EnvDecryptFailed key err
    end.
Proof.
  apply (envCmdRun_stream store_second_corrupt
           (String.list_byte_of_string (Hex.EncodeToString zero_key)) zero_key).
  - reflexivity.
  - reflexivity.
  - vm_compute. reflexivity.
Defined.

Example envCmdRun_second_corrupt :
  envCmdRun (Ok store_second_corrupt)
  = (exportLine "K" (replicate 16 x00),
     EnvDecryptFailed "L" (Crypto.MalformedCiphertext 1)).
Proof. vm_compute. reflexivity. Qed.

(** X15.  The response of the [/env] handler.  When [ListSecrets] fails:
    status 500 with the error text.  Otherwise the body holds the export
    lines of the keys, in the order listed, for as long as the secrets are
    found and decrypt; if all do, the status is 200.  At the first secret
    that does not, the error text is appended to the body, and the status
    is 500 only if no line was written before: after a first line the
    status 200 is already sent and stays. *)
Theorem envHandler_response (store : Db.Store) (encKey : bytes) :
  let resp := Http.Served (envHandler store encKey Http.NewResponse) in
  (forall err, Db.ListSecrets store = Err err ->
     resp = Http.mkHttpResponse 500
              (String.list_byte_of_string ("Error: " +:+ Db.Error err))) /\
  (forall keys, Db.ListSecrets store = Ok keys ->
     exists printed plains rest,
       keys = printed ++ rest /\
       Forall2 (decrypts store encKey) printed plains /\
       match rest with
       | [] =>
           resp = Http.mkHttpResponse 200
                    (String.list_byte_of_string (exportLines printed plains))
       | key :: _ =>
           (forall p, ~ decrypts store encKey key p) /\
           exists msg,
             resp = Http.mkHttpResponse (if decide (printed = []) then 500 else 200)
                      (String.list_byte_of_string
                         (exportLines printed plains +:+ "Error: " +:+ msg))
       end).
Proof.
  intros resp. unfold resp, envHandler. split.
  - intros err ->. done.
  - intros keys ->. cbv zeta.
    set (w := Http.Header_Set Http.NewResponse "Content-Type" "text/plain").
    destruct (envLoop_spec store encKey keys "") as (printed & plains & rest & Heq & Hall & Hout & Hend).
    destruct (envHandlerLoop_envLoop store encKey keys w "") as (added & Hout' & Hresp).
    assert (added = exportLines printed plains) as -> by (by rewrite Hout in Hout').
    pose proof (exportLines_empty printed plains (Forall2_length _ _ _ Hall)) as Hempty.
    exists printed, plains, rest. split_and!; [done..|].
    rewrite Served_status.
    destruct (envLoop store encKey keys "").2 as [| | |key err|key err]; try done.
    + destruct Hresp as [-> ->]. rewrite Hend.
      by destruct (decide (exportLines printed plains = "")).
    + destruct Hend as (rest' & -> & Hget). destruct Hresp as [-> ->]. split.
      * intros p (encrypted & Hget' & _). congruence.
      * exists (Db.Error err). simpl. f_equal.
        destruct (decide (printed = [])), (decide (exportLines printed plains = "")); tauto.
    + destruct Hend as (rest' & encrypted & -> & Hget & Hfail). destruct Hresp as [-> ->]. split.
      * intros p (encrypted' & Hget' & Hdec'). congruence.
      * exists (Crypto.Error err). simpl. f_equal.
        destruct (decide (printed = [])), (decide (exportLines printed plains = "")); tauto.
Qed.

Example envHandler_second_corrupt :
  Http.Served (envHandler store_second_corrupt zero_key Http.NewResponse)
  = Http.mkHttpResponse 200
      (String.list_byte_of_string
         (exportLine "K" (replicate 16 x00) +:+
          "Error: ciphertext too short: expected at least 12 bytes, got 1")).
Proof. vm_compute. reflexivity. Qed.

(** X16.  [env --remote] against a server that holds the store and the key
    the local [env] would open.  When the local command ends normally, the
    remote one prints the same text.  When the local command fails before
    printing anything, the remote one fails on a status 500.  When the
    local command fails after printing some lines, the remote one ends
    normally, having printed those lines followed by the error text of
    the server. *)
Theorem env_remote_vs_local (store : Db.Store) (encKey : bytes) :
  getStoreAndKey (Ok store) = Ok (store, encKey) ->
  let local := envCmdRun (Ok store) in
  let remote := envCmd_remote (Ok (Http.Served (envHandler store encKey Http.NewResponse))) in
  (local.2 = EnvDone -> remote = (local.1, RemoteDone)) /\
  (local.2 <> EnvDone -> local.1 = "" -> exists body, remote = ("", RemoteStatus 500 body)) /\
  (local.2 <> EnvDone -> local.1 <> "" ->
     exists msg, remote = (local.1 +:+ "Error: " +:+ msg, RemoteDone)).
Proof.
  intros Hkey local remote. unfold local, remote, envCmdRun, envHandler. rewrite Hkey.
  destruct (Db.ListSecrets store) as [keys|err]; [|split_and!; [done|eauto|done]].
  cbv zeta.
  set (w := Http.Header_Set Http.NewResponse "Content-Type" "text/plain").
  destruct (envHandlerLoop_envLoop store encKey keys w "") as (added & Hout & Hresp).
  change ("" +:+ added) with added in Hout. rewrite Hout, Served_status.
  unfold envCmd_remote.
  destruct (envLoop store encKey keys "").2 as [| | |key err|key err]; try done;
    destruct Hresp as [-> ->]; simpl;
    destruct (decide (added = "")) as [->|Hne]; simpl;
    rewrite ?String.string_of_list_byte_of_string;
    split_and!; try done; eauto.
Qed.

Lemma env_remote_vs_local_witness :
  envCmd_remote (Ok (Http.Served (envHandler store_served zero_key Http.NewResponse)))
    = ((envCmdRun (Ok store_served)).1, RemoteDone) /\
  exists msg,
    envCmd_remote (Ok (Http.Served (envHandler store_second_corrupt zero_key Http.NewResponse)))
    = ((envCmdRun (Ok store_second_corrupt)).1 +:+ "Error: " +:+ msg, RemoteDone).
Proof.
  split.
  - apply (env_remote_vs_local store_served zero_key); vm_compute; reflexivity.
  - apply (env_remote_vs_local store_second_corrupt zero_key);
      [vm_compute; reflexivity| |]; vm_compute; discriminate.
Defined.

End env.

(** ** AES-256 is a permutation of the blocks *)

Section aes_injective.
Import AES.
Local Open Scope N_scope.

Lemma byte_forall (P : N -> bool) :
  forallb P all_bytes = true -> forall v, v < 256 -> P v = true.
Proof.
  intros H v Hv. rewrite forallb_forall in H. apply H.
  apply list_elem_of_In, list_elem_of_fmap. exists (N.to_nat v). split; [lia|].
  apply elem_of_seq. lia.
Qed.

Ltac xor_ac :=
  apply N.bits_inj; intros ?; rewrite ?N.lxor_spec, ?N.bits_0; btauto.

Lemma gmul_aux_lxor (n : nat) (a s t : N) :
  gmul_aux n a (N.lxor s t) = N.lxor (gmul_aux n a s) (gmul_aux n a t).
Proof.
  revert a s t. induction n as [|n IH]; intros a s t; [done|].
  cbn [gmul_aux]. rewrite N.shiftr_lxor, IH, <- !N.bit0_odd, N.lxor_spec.
  destruct (N.testbit s 0), (N.testbit t 0); cbn [xorb]; xor_ac.
Qed.

Lemma gmul_lxor (k s t : N) : gmul k (N.lxor s t) = N.lxor (gmul k s) (gmul k t).
Proof. apply gmul_aux_lxor. Qed.

Lemma sbox_lt (v : N) : sbox v < 256.
Proof.
  unfold sbox. rewrite nth_lookup.
  destruct (sbox0 !! N.to_nat v) as [x|] eqn:Hx; [|done].
  assert (Forall (fun x => x < 256) sbox0) as Hall.
  { apply (bool_decide_unpack _). vm_compute. exact I. }
  rewrite Forall_lookup in Hall. by apply (Hall _ _ Hx).
Qed.

Lemma sbox_inj (u v : N) : u < 256 -> v < 256 -> sbox u = sbox v -> u = v.
Proof.
  intros Hu Hv. unfold sbox. rewrite !nth_lookup.
  assert (length sbox0 = 256%nat) as Hlen by reflexivity.
  destruct (lookup_lt_is_Some_2 sbox0 (N.to_nat u)) as [x Hx]; [lia|].
  destruct (lookup_lt_is_Some_2 sbox0 (N.to_nat v)) as [y Hy]; [lia|].
  rewrite Hx, Hy. simpl. intros ->.
  assert (NoDup sbox0) as Hnd by (apply (bool_decide_unpack _); vm_compute; exact I).
  pose proof (NoDup_lookup _ _ _ _ Hnd Hx Hy). lia.
Qed.


Lemma gmul_23_lt (v : N) : v < 256 -> gmul 2 v < 256 /\ gmul 3 v < 256.
Proof.
  intros Hv.
  pose proof (byte_forall (fun v => (gmul 2 v <? 256) && (gmul 3 v <? 256)) eq_refl v Hv) as H.
  apply andb_true_iff in H as [H2 H3]. by apply N.ltb_lt in H2, H3.
Qed.

Lemma xtime_lt (v : N) : v < 256 -> xtime v < 256.
Proof.
  intros Hv. apply N.ltb_lt. by apply (byte_forall (fun v => xtime v <? 256)).
Qed.

(** The product of the inverse matrix and the matrix of [mixColumn],
    entry by entry. *)
Lemma inv_mix_entries (v : N) :
  v < 256 ->
  N.lxor (N.lxor (gmul 14 (gmul 2 v)) (gmul 11 v)) (N.lxor (gmul 13 v) (gmul 9 (gmul 3 v))) = v /\
  N.lxor (N.lxor (gmul 14 (gmul 3 v)) (gmul 11 (gmul 2 v))) (N.lxor (gmul 13 v) (gmul 9 v)) = 0 /\
  N.lxor (N.lxor (gmul 14 v) (gmul 11 (gmul 3 v))) (N.lxor (gmul 13 (gmul 2 v)) (gmul 9 v)) = 0 /\
  N.lxor (N.lxor (gmul 14 v) (gmul 11 v)) (N.lxor (gmul 13 (gmul 3 v)) (gmul 9 (gmul 2 v))) = 0.
Proof.
  intros Hv.
  pose proof (byte_forall (fun v =>
    (N.lxor (N.lxor (gmul 14 (gmul 2 v)) (gmul 11 v)) (N.lxor (gmul 13 v) (gmul 9 (gmul 3 v))) =? v) &&
    (N.lxor (N.lxor (gmul 14 (gmul 3 v)) (gmul 11 (gmul 2 v))) (N.lxor (gmul 13 v) (gmul 9 v)) =? 0) &&
    (N.lxor (N.lxor (gmul 14 v) (gmul 11 (gmul 3 v))) (N.lxor (gmul 13 (gmul 2 v)) (gmul 9 v)) =? 0) &&
    (N.lxor (N.lxor (gmul 14 v) (gmul 11 v)) (N.lxor (gmul 13 (gmul 3 v)) (gmul 9 (gmul 2 v))) =? 0))
    eq_refl v Hv) as H.
  rewrite !andb_true_iff, !N.eqb_eq in H. tauto.
Qed.

Lemma inv_mixColumn_mixColumn (s0 s1 s2 s3 : N) :
  s0 < 256 -> s1 < 256 -> s2 < 256 -> s3 < 256 ->
  inv_mixColumn (mixColumn [s0; s1; s2; s3]) = [s0; s1; s2; s3].
Proof.
  intros H0 H1 H2 H3.
  destruct (inv_mix_entries s0 H0) as (A0 & B0 & C0 & D0).
  destruct (inv_mix_entries s1 H1) as (A1 & B1 & C1 & D1).
  destruct (inv_mix_entries s2 H2) as (A2 & B2 & C2 & D2).
  destruct (inv_mix_entries s3 H3) as (A3 & B3 & C3 & D3).
  unfold mixColumn, inv_mixColumn. rewrite !gmul_lxor.
  repeat f_equal.
  - trans (N.lxor (N.lxor s0 0) (N.lxor 0 0)); [|by rewrite !N.lxor_0_r].
    rewrite <- (f_equal2 N.lxor (f_equal2 N.lxor A0 B1) (f_equal2 N.lxor C2 D3)). xor_ac.
  - trans (N.lxor (N.lxor 0 s1) (N.lxor 0 0)); [|by rewrite !N.lxor_0_r, N.lxor_0_l].
    rewrite <- (f_equal2 N.lxor (f_equal2 N.lxor D0 A1) (f_equal2 N.lxor B2 C3)). xor_ac.
  - trans (N.lxor (N.lxor 0 0) (N.lxor s2 0)); [|by rewrite !N.lxor_0_r, N.lxor_0_l].
    rewrite <- (f_equal2 N.lxor (f_equal2 N.lxor C0 D1) (f_equal2 N.lxor A2 B3)). xor_ac.
  - trans (N.lxor (N.lxor 0 0) (N.lxor 0 s3)); [|by rewrite !N.lxor_0_l].
    rewrite <- (f_equal2 N.lxor (f_equal2 N.lxor B0 C1) (f_equal2 N.lxor D2 A3)). xor_ac.
Qed.


Ltac explicit_block st :=
  do 16 (destruct st as [|? st]; [done|]); destruct st; [|done].

Lemma map_sbox_lt (st : list N) : Forall (fun x => x < 256) (map sbox st).
Proof. apply Forall_forall. intros x Hx. apply list_elem_of_fmap in Hx as (v & -> & _). apply sbox_lt. Qed.

Lemma map_sbox_inj (st st' : list N) :
  Forall (fun x => x < 256) st -> Forall (fun x => x < 256) st' ->
  map sbox st = map sbox st' -> st = st'.
Proof.
  intros Hst. revert st'. induction Hst as [|x st Hx Hst IH]; intros st' Hst' Heq.
  - by destruct st'.
  - destruct Hst' as [|y st' Hy Hst']; [done|]. injection Heq as Hxy Heq.
    f_equal; [by apply sbox_inj|by apply IH].
Qed.

Lemma shiftRows_block (st : list N) : is_block st -> is_block (shiftRows st).
Proof.
  intros [Hlen Hall]. split; [apply length_shiftRows|].
  explicit_block st. 
  repeat match goal with H : Forall _ (_ :: _) |- _ => apply Forall_cons in H as [? H] end.
  unfold shiftRows. cbn. repeat constructor; done.
Qed.

Lemma shiftRows_inj (st st' : list N) :
  length st = 16%nat -> length st' = 16%nat -> shiftRows st = shiftRows st' -> st = st'.
Proof.
  intros Hlen Hlen' Heq. explicit_block st. explicit_block st'.
  unfold shiftRows in Heq. cbn in Heq. congruence.
Qed.

Lemma mixColumns_explicit (a0 a1 a2 a3 a4 a5 a6 a7 a8 a9 a10 a11 a12 a13 a14 a15 : N) :
  mixColumns [a0; a1; a2; a3; a4; a5; a6; a7; a8; a9; a10; a11; a12; a13; a14; a15]
  = mixColumn [a0; a1; a2; a3] ++ mixColumn [a4; a5; a6; a7] ++
    mixColumn [a8; a9; a10; a11] ++ mixColumn [a12; a13; a14; a15].
Proof. reflexivity. Qed.

Lemma length_mixColumn (s0 s1 s2 s3 : N) : length (mixColumn [s0; s1; s2; s3]) = 4%nat.
Proof. reflexivity. Qed.

Ltac lt_256 := first [assumption | apply N_lxor_lt_256; lt_256].

Lemma mixColumn_lt (s0 s1 s2 s3 : N) :
  s0 < 256 -> s1 < 256 -> s2 < 256 -> s3 < 256 ->
  Forall (fun x => x < 256) (mixColumn [s0; s1; s2; s3]).
Proof.
  intros H0 H1 H2 H3.
  destruct (gmul_23_lt s0 H0), (gmul_23_lt s1 H1), (gmul_23_lt s2 H2), (gmul_23_lt s3 H3).
  unfold mixColumn. repeat apply Forall_cons_2; [..|apply Forall_nil_2]; lt_256.
Qed.

Lemma mixColumn_inj (s0 s1 s2 s3 t0 t1 t2 t3 : N) :
  s0 < 256 -> s1 < 256 -> s2 < 256 -> s3 < 256 ->
  t0 < 256 -> t1 < 256 -> t2 < 256 -> t3 < 256 ->
  mixColumn [s0; s1; s2; s3] = mixColumn [t0; t1; t2; t3] ->
  [s0; s1; s2; s3] = [t0; t1; t2; t3].
Proof.
  intros ? ? ? ? ? ? ? ? Heq. apply (f_equal inv_mixColumn) in Heq.
  by rewrite !inv_mixColumn_mixColumn in Heq.
Qed.

Lemma mixColumns_block (st : list N) : is_block st -> is_block (mixColumns st).
Proof.
  intros [Hlen Hall]. explicit_block st.
  repeat match goal with H : Forall _ (_ :: _) |- _ => apply Forall_cons in H as [? H] end.
  rewrite mixColumns_explicit. split.
  - rewrite !length_app, !length_mixColumn. done.
  - rewrite !Forall_app. split_and!; by apply mixColumn_lt.
Qed.

Lemma mixColumns_inj (st st' : list N) :
  is_block st -> is_block st' -> mixColumns st = mixColumns st' -> st = st'.
Proof.
  intros [Hlen Hall] [Hlen' Hall'] Heq. explicit_block st. explicit_block st'.
  repeat match goal with H : Forall _ (_ :: _) |- _ => apply Forall_cons in H as [? H] end.
  rewrite !mixColumns_explicit in Heq.
  apply app_inj_1 in Heq as [E0 Heq]; [|by rewrite !length_mixColumn].
  apply app_inj_1 in Heq as [E1 Heq]; [|by rewrite !length_mixColumn].
  apply app_inj_1 in Heq as [E2 E3]; [|by rewrite !length_mixColumn].
  apply mixColumn_inj in E0, E1, E2, E3; try done. congruence.
Qed.

Lemma xorWords_lt (st k : list N) :
  Forall (fun x => x < 256) st -> Forall (fun x => x < 256) k ->
  Forall (fun x => x < 256) (xorWords st k).
Proof.
  intros Hst. revert k. induction Hst as [|x st Hx Hst IH]; intros k Hk; [constructor|].
  destruct Hk as [|y k Hy Hk]; [constructor|].
  constructor; [by apply N_lxor_lt_256|by apply IH].
Qed.

Lemma xorWords_block (st k : list N) : is_block st -> is_block k -> is_block (xorWords st k).
Proof.
  intros [Hlen Hall] [Hlen' Hall']. split; [|by apply xorWords_lt].
  unfold xorWords. rewrite length_zip_with. lia.
Qed.

Lemma xorWords_inj (st st' k : list N) :
  length st = length st' -> (length st <= length k)%nat ->
  xorWords st k = xorWords st' k -> st = st'.
Proof.
  revert st' k. induction st as [|x st IH]; intros [|y st'] k Hlen Hk Heq; try done.
  destruct k as [|z k]; [simpl in Hk; lia|].
  injection Heq as Hxy Heq. simpl in Hlen, Hk. f_equal.
  - apply (f_equal (fun v => N.lxor v z)) in Hxy.
    by rewrite !N.lxor_assoc, !N.lxor_nilpotent, !N.lxor_0_r in Hxy.
  - apply (IH st' k); [lia|lia|done].
Qed.

Lemma roundKey_block (w : list N) (r : nat) :
  Forall (fun x => x < 256) w -> (16 * (r + 1) <= length w)%nat -> is_block (roundKey w r).
Proof.
  intros Hall Hlen. unfold roundKey. split.
  - rewrite length_take, length_drop. lia.
  - by apply Forall_take, Forall_drop.
Qed.

(** One round, without the key addition. *)
Lemma round_block (st : list N) :
  is_block st -> is_block (mixColumns (shiftRows (map sbox st))).
Proof.
  intros [Hlen Hall]. apply mixColumns_block, shiftRows_block.
  split; [by rewrite length_map|apply map_sbox_lt].
Qed.

Lemma rounds_block (n r : nat) (w st : list N) :
  Forall (fun x => x < 256) w -> (16 * (r + n) <= length w)%nat ->
  is_block st -> is_block (rounds n r w st).
Proof.
  intros Hw. revert r st. induction n as [|n IH]; intros r st Hlen Hst; [done|].
  cbn [rounds]. apply IH; [lia|].
  apply xorWords_block; [by apply round_block|]. apply roundKey_block; [done|lia].
Qed.

Lemma rounds_inj (n r : nat) (w st st' : list N) :
  Forall (fun x => x < 256) w -> (16 * (r + n) <= length w)%nat ->
  is_block st -> is_block st' ->
  rounds n r w st = rounds n r w st' -> st = st'.
Proof.
  intros Hw. revert r st st'. induction n as [|n IH]; intros r st st' Hlen Hst Hst' Heq; [done|].
  cbn [rounds] in Heq.
  assert (is_block (roundKey w r)) as Hk by (apply roundKey_block; [done|lia]).
  pose proof (round_block st Hst) as Hr. pose proof (round_block st' Hst') as Hr'.
  apply IH in Heq; [|lia|by apply xorWords_block..].
  apply xorWords_inj in Heq;
    [|destruct Hr as [-> _], Hr' as [-> _]; done|destruct Hr as [-> _], Hk as [-> _]; done].
  apply mixColumns_inj in Heq;
    [|apply shiftRows_block; split; [rewrite length_map; apply Hst|apply map_sbox_lt]
     |apply shiftRows_block; split; [rewrite length_map; apply Hst'|apply map_sbox_lt]].
  apply shiftRows_inj in Heq; [|rewrite length_map; apply Hst|rewrite length_map; apply Hst'].
  apply map_sbox_inj in Heq; [done|apply Hst|apply Hst'].
Qed.

Lemma encryptBlock_block (w src : list N) :
  Forall (fun x => x < 256) w -> length w = 240%nat -> is_block src ->
  is_block (encryptBlock w 14 src).
Proof.
  intros Hw Hlen Hsrc. unfold encryptBlock. cbv zeta.
  apply xorWords_block; [|apply roundKey_block; [done|lia]].
  apply shiftRows_block.
  assert (is_block (rounds (14 - 1) 1 w (xorWords src (roundKey w 0)))) as [Hl _].
  { apply rounds_block; [done|simpl; lia|].
    apply xorWords_block; [done|]. apply roundKey_block; [done|lia]. }
  split; [by rewrite length_map|apply map_sbox_lt].
Qed.

Lemma encryptBlock_inj (w src src' : list N) :
  Forall (fun x => x < 256) w -> length w = 240%nat ->
  is_block src -> is_block src' ->
  encryptBlock w 14 src = encryptBlock w 14 src' -> src = src'.
Proof.
  intros Hw Hlen Hsrc Hsrc' Heq. unfold encryptBlock in Heq. cbv zeta in Heq.
  assert (is_block (roundKey w 0)) as Hk0 by (apply roundKey_block; [done|lia]).
  assert (is_block (roundKey w 14)) as Hk14 by (apply roundKey_block; [done|lia]).
  assert (forall s, is_block s -> is_block (rounds (14 - 1) 1 w (xorWords s (roundKey w 0)))) as Hr.
  { intros s Hs. apply rounds_block; [done|simpl; lia|]. by apply xorWords_block. }
  pose proof (Hr src Hsrc) as [Hl Hb]. pose proof (Hr src' Hsrc') as [Hl' Hb'].
  remember (rounds (14 - 1) 1 w (xorWords src (roundKey w 0))) as s eqn:Hs.
  remember (rounds (14 - 1) 1 w (xorWords src' (roundKey w 0))) as s' eqn:Hs'.
  apply xorWords_inj in Heq;
    [|by rewrite !length_shiftRows|rewrite length_shiftRows; by destruct Hk14 as [-> _]].
  apply shiftRows_inj in Heq; [|by rewrite length_map..].
  apply map_sbox_inj in Heq; [|done..].
  rewrite Hs, Hs' in Heq.
  apply rounds_inj in Heq; [|done|simpl; lia|by apply xorWords_block..].
  apply xorWords_inj in Heq; [done| |].
  - destruct Hsrc as [-> _], Hsrc' as [-> _]. done.
  - destruct Hsrc as [-> _], Hk0 as [-> _]. done.
Qed.


Lemma words_lt (n : nat) (key : list N) :
  Forall (fun x => x < 256) key -> Forall (Forall (fun x => x < 256)) (words n key).
Proof.
  revert key. induction n as [|n IH]; intros key Hkey; cbn [words]; [constructor|].
  constructor; [by apply Forall_take|]. by apply IH, Forall_drop.
Qed.

Lemma nth_words_lt (i : nat) (ws : list (list N)) :
  Forall (Forall (fun x => x < 256)) ws -> Forall (fun x => x < 256) (nth i ws []).
Proof.
  intros Hws. rewrite nth_lookup.
  destruct (ws !! i) as [word|] eqn:Hword; [|constructor].
  rewrite Forall_lookup in Hws. by apply (Hws _ _ Hword).
Qed.

Lemma expand_lt (fuel nk i : nat) (rcon : N) (ws : list (list N)) :
  rcon < 256 ->
  Forall (Forall (fun x => x < 256)) ws ->
  Forall (Forall (fun x => x < 256)) (expand fuel nk i rcon ws).
Proof.
  revert i rcon ws. induction fuel as [|fuel IH]; intros i rcon ws Hrcon Hws; [done|].
  cbn [expand].
  pose proof (nth_words_lt 0 ws Hws) as Hprev.
  pose proof (nth_words_lt (nk - 1) ws Hws) as Hback.
  repeat case_decide.
  - apply IH; [by apply xtime_lt|]. constructor; [|done].
    apply xorWords_lt; [done|]. apply xorWords_lt; [apply map_sbox_lt|].
    repeat constructor; done.
  - apply IH; [done|]. constructor; [|done].
    apply xorWords_lt; [done|apply map_sbox_lt].
  - apply IH; [done|]. constructor; [|done]. by apply xorWords_lt.
Qed.

Lemma expandKey_lt (key : list N) :
  Forall (fun x => x < 256) key -> Forall (fun x => x < 256) (expandKey key).
Proof.
  intros Hkey. unfold expandKey. cbv zeta.
  apply Forall_concat, Forall_rev, expand_lt; [done|].
  by apply Forall_rev, words_lt.
Qed.

Lemma map_to_N_lt (src : bytes) : Forall (fun x => x < 256) (map Byte.to_N src).
Proof.
  apply Forall_forall. intros x Hx. apply list_elem_of_fmap in Hx as (v & -> & _).
  apply to_N_lt_256.
Qed.

Lemma map_byte_of_N_inj (st st' : list N) :
  Forall (fun x => x < 256) st -> Forall (fun x => x < 256) st' ->
  map byte_of_N st = map byte_of_N st' -> st = st'.
Proof.
  intros Hst. revert st'. induction Hst as [|x st Hx Hst IH]; intros st' Hst' Heq.
  - by destruct st'.
  - destruct Hst' as [|y st' Hy Hst']; [done|]. injection Heq as Hxy Heq.
    f_equal; [|by apply IH].
    apply (f_equal Byte.to_N) in Hxy. rewrite !to_N_byte_of_N in Hxy.
    by rewrite !N.mod_small in Hxy.
Qed.

Lemma map_to_N_inj (src src' : bytes) : map Byte.to_N src = map Byte.to_N src' -> src = src'.
Proof.
  revert src'. induction src as [|x src IH]; intros [|y src'] Heq; try done.
  injection Heq as Hxy Heq. f_equal; [by apply to_N_inj|by apply IH].
Qed.

End aes_injective.

(** AES-256 is a permutation of the 16-byte blocks: in particular two
    blocks with the same encryption are the same. *)
Lemma NewCipher_256_inj (key : bytes) (block : Cipher.Block) (src src' : bytes) :
  length key = 32 ->
  AES.NewCipher key = Ok block ->
  length src = 16 -> length src' = 16 ->
  Cipher.Encrypt block src = Cipher.Encrypt block src' -> src = src'.
Proof.
  intros Hlen Hblock Hsrc Hsrc'. unfold AES.NewCipher in Hblock. rewrite Hlen in Hblock.
  rewrite decide_True in Hblock by auto. injection Hblock as <-. cbn [Cipher.Encrypt].
  change (32 / 4 + 6) with 14.
  set (w := AES.expandKey (map Byte.to_N key)).
  assert (Forall (fun x => (x < 256)%N) w) as Hw by apply expandKey_lt, map_to_N_lt.
  assert (length w = 240) as Hwlen by (apply length_expandKey_256; by rewrite length_map).
  assert (forall s : bytes, length s = 16 -> is_block (map Byte.to_N s)) as Hb.
  { intros s Hs. split; [by rewrite length_map|apply map_to_N_lt]. }
  intros Heq.
  apply map_byte_of_N_inj in Heq; [|by apply encryptBlock_block; auto..].
  apply encryptBlock_inj in Heq; auto.
  by apply map_to_N_inj.
Qed.

(** ** A changed nonce *)

Section nonce.
Import Cipher.

Lemma be_N_snoc (l : bytes) (x : byte) : be_N (l ++ [x]) = (be_N l * 256 + Byte.to_N x)%N.
Proof. unfold be_N. by rewrite foldl_app. Qed.

Lemma be_bytes_be_N (l : bytes) : be_bytes (length l) (be_N l) = l.
Proof.
  induction l as [|x l IH] using rev_ind; [done|].
  rewrite length_app, Nat.add_1_r, be_N_snoc. cbn [be_bytes].
  pose proof (to_N_lt_256 x) as Hx.
  replace ((be_N l * 256 + Byte.to_N x) / 256)%N with (be_N l)
    by (apply N.div_unique with (Byte.to_N x); lia).
  rewrite IH. f_equal. f_equal. apply to_N_inj. rewrite to_N_byte_of_N.
  symmetry. apply N.mod_unique with (be_N l); lia.
Qed.

Lemma deriveCounter_inj (nonce nonce' : bytes) :
  length nonce = 12 -> length nonce' = 12 ->
  be_bytes 16 (deriveCounter nonce) = be_bytes 16 (deriveCounter nonce') -> nonce = nonce'.
Proof.
  intros Hn Hn' Heq. unfold deriveCounter in Heq.
  pose proof (be_bytes_be_N (nonce ++ [x00; x00; x00; x01])) as H.
  pose proof (be_bytes_be_N (nonce' ++ [x00; x00; x00; x01])) as H'.
  rewrite length_app, Hn in H. rewrite length_app, Hn' in H'.
  change (12 + length [x00; x00; x00; x01]) with 16 in H, H'.
  rewrite H, H' in Heq. by apply app_inv_tail in Heq.
Qed.

Lemma xorBytes_inj (a m m' : bytes) :
  length m = length m' -> length m <= length a ->
  xorBytes a m = xorBytes a m' -> m = m'.
Proof.
  revert m m'. induction a as [|x a IH]; intros [|y m] [|y' m'] Hlen Ha Heq;
    simpl in *; try done; try lia.
  injection Heq as Hy Heq. f_equal; [|apply IH; [lia|lia|done]].
  apply to_N_inj. apply (f_equal Byte.to_N) in Hy. rewrite !to_N_byte_xor in Hy.
  apply (f_equal (N.lxor (Byte.to_N x))) in Hy.
  by rewrite <- !N.lxor_assoc, !N.lxor_nilpotent, !N.lxor_0_l in Hy.
Qed.

End nonce.

Section tampered_nonce.
Import Crypto.

(** X17.  [Decrypt] detects any change to the nonce: a blob that differs
    from one [Encrypt] produced in its first 12 bytes, and only there, is
    rejected with [AuthenticationFailure]. *)
Theorem Decrypt_tampered_nonce (rnd : Rand.Reader) (plaintext key blob blob' : bytes) :
  (Encrypt rnd plaintext key).1 = Ok blob ->
  drop 12 blob' = drop 12 blob ->
  take 12 blob' <> take 12 blob ->
  Decrypt blob' key = Err (AuthenticationFailure Cipher.errOpen).
Proof.
  intros Henc Hdrop Htake.
  apply Encrypt_Ok_inv in Henc
    as (Hlen & Hrnd & block & g & sealed & Hblock & Hg & Hseal & ->).
  destruct (aes_gcm_256 key Hlen) as (block' & g' & Hblock' & Hg' & Hc & Hn & Ht & Hsize).
  same_instance block' g' block g.
  assert (length (take 12 rnd) = 12) as Hnonce by (rewrite length_take; lia).
  destruct (N.ltb_spec Cipher.gcmMaxPlaintext (N.of_nat (length plaintext))) as [Hbig|Hmax].
  { by rewrite (Seal_too_large g Hn Ht _ _ Hnonce Hbig) in Hseal. }
  pose proof (Seal_ok block g Hc Hn Ht _ _ Hnonce Hmax) as Hs. cbv zeta in Hs.
  set (counter := Cipher.deriveCounter (take 12 rnd)) in *.
  set (out := Cipher.counterCrypt block (Cipher.gcmInc32 counter) plaintext) in *.
  set (tag := Cipher.auth g out [] (Cipher.Encrypt block (Cipher.be_bytes 16 counter))) in *.
  assert (sealed = out ++ tag) as -> by congruence.
  assert (length out = length plaintext) as Hout by apply length_counterCrypt, Hsize.
  assert (length tag = 16) as Htag by (by apply length_auth).
  rewrite drop_app_length' in Hdrop by done.
  rewrite take_app_length' in Htake by done.
  assert (12 <= length blob') as Hblob'.
  { destruct (decide (12 <= length blob')); [done|].
    rewrite drop_ge in Hdrop by lia. apply (f_equal length) in Hdrop.
    rewrite length_app in Hdrop. simpl in Hdrop. lia. }
  assert (length (take 12 blob') = 12) as Hnonce' by (rewrite length_take; lia).
  rewrite (Decrypt_valid_key _ _ block g Hlen) by done.
  unfold NonceSize. rewrite Hdrop.
  rewrite (Open_split block Hsize g Hc Hn Ht) by (try done; lia).
  rewrite decide_False; [done|]. intros Heq. apply Htake.
  unfold tag, Cipher.auth in Heq. cbv zeta in Heq.
  apply xorBytes_inj in Heq; [|by rewrite !Hsize|by rewrite Hsize, length_be_bytes].
  apply (NewCipher_256_inj key block) in Heq; [|done|done|apply length_be_bytes..].
  by apply deriveCounter_inj in Heq.
Qed.

(** The blob of the test vector with its first byte xored with [0xff]. *)
Lemma Decrypt_tampered_nonce_witness :
  Decrypt (flip_byte xff 0 zero_block_blob) zero_key
  = Err (AuthenticationFailure Cipher.errOpen).
Proof.
  apply (Decrypt_tampered_nonce zero_nonce (replicate 16 x00) zero_key zero_block_blob).
  - vm_compute. reflexivity.
  - reflexivity.
  - vm_compute. discriminate.
Defined.

End tampered_nonce.

(** ** What [init] writes *)

Section init.
Import Main.

(** X18.  Whatever the store and the entropy source, [init] reports
    [Created] only after writing a key entry that [getStoreAndKey] decodes
    to 32 bytes, the first 32 of the entropy source, with the secrets
    untouched; with any other outcome the store is left as it was. *)
Theorem initCmd_Run_key_length (store store' : Db.Store) (rnd rnd' : Rand.Reader)
    (outcome : init_outcome) :
  initCmd_Run (Ok store) rnd = (outcome, Some store', rnd') ->
  (outcome = Created ->
   length (take 32 rnd) = 32 /\
   getStoreAndKey (Ok store') = Ok (store', take 32 rnd) /\
   Db.secrets (Db.db store') = Db.secrets (Db.db store) /\
   rnd' = drop 32 rnd) /\
  (outcome <> Created -> store' = store).
Proof.
  unfold initCmd_Run.
  destruct (Db.GetConfig store "encryption_key") as [v|[|context cause]] eqn:Hget.
  - intros [= <- <- <-]. done.
  - assert (Db.driver_err (Db.db store) = None) as Hok.
    { unfold Db.GetConfig, Db.QueryRow_config_value in Hget.
      by destruct (Db.driver_err (Db.db store)). }
    destruct (Crypto.GenerateKey rnd) as [[key|err] rnd1] eqn:Hgen.
    + apply GenerateKey_Ok_inv in Hgen as (Hlen & -> & ->).
      unfold Db.SetConfig, Db.Exec_replace_config. rewrite Hok.
      intros [= <- <- <-]. split; [|done]. intros _. split_and!; try done.
      apply getStoreAndKey_hex; [done|]. apply lookup_insert_eq.
    + intros [= <- <- <-]. done.
  - intros [= <- <- <-]. done.
Qed.

Lemma initCmd_Run_key_length_witness :
  exists store',
    initCmd_Run (Ok store_bac) (replicate 32 x2a)
      = (Created, Some store', drop 32 (replicate 32 x2a)) /\
    length (take 32 (replicate 32 x2a)) = 32 /\
    getStoreAndKey (Ok store') = Ok (store', take 32 (replicate 32 x2a)) /\
    Db.secrets (Db.db store') = Db.secrets (Db.db store_bac).
Proof.
  eexists. split; [vm_compute; reflexivity|].
  eassert (initCmd_Run (Ok store_bac) (replicate 32 x2a) = (Created, Some _, _)) as Hrun
    by (vm_compute; reflexivity).
  destruct (initCmd_Run_key_length _ _ _ _ _ Hrun) as [Hcreated _].
  destruct (Hcreated eq_refl) as (Hlen & Hkey & Hsecrets & _).
  split_and!; [exact Hlen|exact Hkey|exact Hsecrets].
Defined.

End init.

(** ** Local and remote reads *)

Section reads.
Import Main.


(** X19.  The get-one handler of a server that holds the store and the
    key [get] would open answers as [get] does: 200 with the printed value
    as the body when [get] prints it, 404 when [get] reports that the
    secret is not found, 500 when [get] fails to read or to decrypt. *)
Theorem secretHandler_vs_getCmd_Run (store : Db.Store) (encKey : bytes) (key : string) :
  getStoreAndKey (Ok store) = Ok (store, encKey) ->
  key <> "" ->
  let resp := Http.Served (secretHandler store encKey Http.NewResponse ("/secrets/" +:+ key)) in
  match getCmd_Run (Ok store) key with
  | Printed stdout => resp = Http.mkHttpResponse 200 (String.list_byte_of_string stdout)
  | SecretNotFound _ => Http.StatusCode resp = 404%Z
  | GetFailed _ | GetDecryptFailed _ => Http.StatusCode resp = 500%Z
  | GetKeyFailed _ => False
  end.
Proof.
  intros Hkey Hne resp. unfold resp, getCmd_Run, secretHandler.
  rewrite Hkey, TrimPrefix_secrets, decide_False by done.
  destruct (Db.GetSecret store key) as [encrypted|[|context cause]]; [|done..].
  destruct (Crypto.Decrypt encrypted encKey) as [decrypted|err]; [|done].
  by rewrite String.list_byte_of_string_of_list_byte.
Qed.

Lemma secretHandler_vs_getCmd_Run_witness :
  Http.Served (secretHandler store_served zero_key Http.NewResponse ("/secrets/" +:+ "K"))
  = Http.mkHttpResponse 200
      (String.list_byte_of_string (String.string_of_list_byte (replicate 16 x00))).
Proof.
  assert (getCmd_Run (Ok store_served) "K"
          = Printed (String.string_of_list_byte (replicate 16 x00))) as Hget
    by (vm_compute; reflexivity).
  pose proof (secretHandler_vs_getCmd_Run store_served zero_key "K") as H.
  cbv zeta in H. rewrite Hget in H. apply H; [vm_compute; reflexivity|discriminate].
Defined.




End reads.
